(** * Cython/Build/Cythonize.py: the [cythonize] command line driver

    A shallow embedding of the build orchestration of
    [Cython/Build/Cythonize.py] and the properties of its specification.

    - [PosixPath]: the functions of [os.path] the module calls
      ([split], [dirname], [join]), on strings, as [posixpath] defines them.
    - [find_package_base]: the package walk.
    - A world (working directory, existing directories, trace of calls to
      the external collaborators) and a state-and-exception monad over it.
    - [run_distutils], [cython_compile], the argument parser, [parse_args]
      and [main].

    What the model takes from the environment:
    - path names are the absolute names [cython_compile] works with (it
      applies [os.path.abspath] to every discovered path), so a name
      denotes the same directory whatever the working directory is;
    - [os.getcwd] and [os.chdir] fail exactly when the directory is
      missing, [tempfile.mkdtemp] fails when its parent is missing or no
      fresh name is found, [shutil.rmtree] removes a tree;
    - the translator, the pool constructor and the native build are
      arbitrary functions of their arguments and the world ([Env]); each
      may raise; the build adds directories and removes none;
    - jobs handed to a real pool run in worker processes: the calling
      process sees the submission only;
    - a [while] loop runs on fuel. *)

From Stdlib Require Import Ascii String ZArith Lia.
From stdpp Require Import base strings list gmap.

#[local] Open Scope string_scope.

(** ** Strings *)

Definition slash : ascii := "/"%char.

Definition is_slash (c : ascii) : bool := Ascii.eqb c slash.

(** [no_slash s]: the separator does not occur in [s]. *)
Fixpoint no_slash (s : string) : bool :=
  match s with
  | EmptyString => true
  | String c r => negb (is_slash c) && no_slash r
  end.

(** [s == '/' * len(s)] *)
Fixpoint all_slashes (s : string) : bool :=
  match s with
  | EmptyString => true
  | String c r => is_slash c && all_slashes r
  end.

(** [s.rstrip('/')] *)
Fixpoint rstrip_slash (s : string) : string :=
  match s with
  | EmptyString => EmptyString
  | String c r =>
      match rstrip_slash r with
      | EmptyString => if is_slash c then EmptyString else String c EmptyString
      | r' => String c r'
      end
  end.

(** [s.endswith('/')] *)
Fixpoint ends_with_slash (s : string) : bool :=
  match s with
  | EmptyString => false
  | String c EmptyString => is_slash c
  | String _ r => ends_with_slash r
  end.

(** [s.startswith('/')] *)
Definition starts_with_slash (s : string) : bool :=
  match s with
  | String c _ => is_slash c
  | EmptyString => false
  end.

Definition nonempty (s : string) : bool :=
  match s with EmptyString => false | String _ _ => true end.

(** [(s[:i], s[i:])] for [i = s.rfind('/') + 1] *)
Fixpoint rcut_slash (s : string) : string * string :=
  match s with
  | EmptyString => (EmptyString, EmptyString)
  | String c r =>
      let '(h, t) := rcut_slash r in
      if nonempty h then (String c h, t)
      else if is_slash c then (String c EmptyString, r)
      else (EmptyString, String c r)
  end.

Module PosixPath.

(** [posixpath.split]:
<<
  i = p.rfind(sep) + 1
  head, tail = p[:i], p[i:]
  if head and head != sep*len(head):
      head = head.rstrip(sep)
  return head, tail
>> *)
Definition split (p : string) : string * string :=
  let '(head, tail) := rcut_slash p in
  (if nonempty head && negb (all_slashes head) then rstrip_slash head else head,
   tail).

(** [posixpath.dirname] is the first component of [split]. *)
Definition dirname (p : string) : string := fst (split p).

(** [posixpath.join(a, b)]: an absolute [b] replaces [a]; a separator is
    inserted unless [a] is empty or already ends with one. *)
Definition join (a b : string) : string :=
  if starts_with_slash b then b
  else if negb (nonempty a) || ends_with_slash a then a +:+ b
  else a +:+ "/" +:+ b.

End PosixPath.

(** ** [find_package_base]

    [is_package_dir] is imported from [Cython.Utils]; it is a parameter of
    the development.  The [while] loop is run on fuel: [None] stands for a
    walk that has not left the packages after [fuel] rounds.
<<
    def find_package_base(path):
        base_dir, package_path = os.path.split(path)
        while is_package_dir(base_dir):
            base_dir, parent = os.path.split(base_dir)
            package_path = '%s/%s' % (parent, package_path)
        return base_dir, package_path
>> *)
Section PackageBase.
Variable is_package_dir : string → bool.

Fixpoint find_package_base_loop (fuel : nat) (base_dir package_path : string)
  : option (string * string) :=
  match fuel with
  | O => None
  | S fuel' =>
      if is_package_dir base_dir then
        let '(base_dir', parent) := PosixPath.split base_dir in
        find_package_base_loop fuel' base_dir' (parent +:+ "/" +:+ package_path)
      else Some (base_dir, package_path)
  end.

Definition find_package_base (fuel : nat) (path : string)
  : option (string * string) :=
  let '(base_dir, package_path) := PosixPath.split path in
  find_package_base_loop fuel base_dir package_path.

(** The directory reached from [base] through the segments [segs], each
    step made with [os.path.join]. *)
Definition descend (base : string) (segs : list string) : string :=
  foldl PosixPath.join base segs.

(** ['/'.join(segs + [leaf])] *)
Fixpoint slash_join (segs : list string) (leaf : string) : string :=
  match segs with
  | [] => leaf
  | s :: r => s +:+ "/" +:+ slash_join r leaf
  end.
End PackageBase.

(** A path segment: not empty, no separator. *)
Definition segment (s : string) : Prop := nonempty s = true ∧ no_slash s = true.

(** A directory name as [split] returns them: only separators (the root,
    or nothing), or no trailing separator. *)
Definition stripped (d : string) : Prop :=
  all_slashes d = true ∨ ends_with_slash d = false.

(** ** Exceptions, results, the world

    A call returns, raises, or is cut short because the model does not
    determine its end: a [while] loop that has not finished on the fuel
    it was given, or an argument list outside the modelled part of
    [argparse]. *)

Inductive exn :=
| OSError (what : string)
| SystemExit (code : Z)
| PyException (what : string).

Definition is_OSError (e : exn) : bool :=
  match e with OSError _ => true | _ => false end.

Inductive result (A : Type) :=
| Ok (a : A)
| Raised (e : exn)
| Undetermined.
Arguments Ok {A} a.
Arguments Raised {A} e.
Arguments Undetermined {A}.

(** A compile unit: the opaque [Extension] the translator returns, named
    by its module. *)
Definition Extension := string.

(** The argument of [run_distutils]: [(base_dir, ext_modules)]. *)
Definition job : Type := option string * list Extension.

(** The pool object bound to [pool]: a [multiprocessing.Pool], numbered in
    order of creation, or the [_FakePool]. *)
Inductive pool :=
| RealPool (id : nat)
| FakePool.

(** The calls that leave the module, in the order they are made by the
    calling thread.  [Chdir], [Mkdtemp] and [Rmtree] record the calls that
    succeeded; [RunDistutils] records that [run_distutils] was entered in
    the calling thread. *)
Inductive event :=
| Chdir (dir : string)
| Mkdtemp (created : string)
| Rmtree (dir : string)
| Setup (script_args : list string) (ext_modules : list Extension)
| RunDistutils (args : job)
| Cythonize (paths : list string)
| PoolNew (processes : Z) (id : nat)
| FakePoolNew
| MapAsync (p : pool) (jobs : list job)
| Terminate (p : pool)
| Close (p : pool)
| Join (p : pool).

(** The process-wide flags of [Cython.Compiler.Options] that [main] sets. *)
Record compiler_flags := CompilerFlags {
  error_on_unknown_names : bool;
  error_on_uninitialized : bool;
  flag_annotate : bool;
  docstrings : bool
}.

Record world := World {
  cwd : string;               (* the process working directory *)
  dirs : gset string;         (* the directories that exist *)
  trace : list event;
  pools_made : nat;           (* how many multiprocessing.Pool were created *)
  flags : compiler_flags
}.

Definition set_cwd (d : string) (w : world) : world :=
  World d (dirs w) (trace w) (pools_made w) (flags w).
Definition set_dirs (ds : gset string) (w : world) : world :=
  World (cwd w) ds (trace w) (pools_made w) (flags w).
Definition set_flags (f : compiler_flags) (w : world) : world :=
  World (cwd w) (dirs w) (trace w) (pools_made w) f.
Definition emit (e : event) (w : world) : world :=
  World (cwd w) (dirs w) (trace w ++ [e]) (pools_made w) (flags w).
Definition count_pool (w : world) : world :=
  World (cwd w) (dirs w) (trace w) (S (pools_made w)) (flags w).

Definition isdir (p : string) (w : world) : bool := bool_decide (p ∈ dirs w).

(** [d] is [p] or lies below it. *)
Definition within (p d : string) : bool :=
  String.eqb d p || String.prefix (p +:+ "/") d.

(** ** The monad: state and exceptions

    The state [S] is the world, or the local variables of a function
    together with the world: an assignment made in a [try] body is seen by
    its [finally] and [except] clauses also when the body raises. *)

Definition ST (S A : Type) : Type := S → result A * S.

Definition ret {S A} (a : A) : ST S A := λ s, (Ok a, s).

Definition raise {S A} (e : exn) : ST S A := λ s, (Raised e, s).

Definition bind {S A B} (m : ST S A) (k : A → ST S B) : ST S B :=
  λ s, match m s with
       | (Ok a, s') => k a s'
       | (Raised e, s') => (Raised e, s')
       | (Undetermined, s') => (Undetermined, s')
       end.

Declare Scope st_scope.
Delimit Scope st_scope with st.
Notation "'let*' x ':=' m 'in' k" := (bind m (λ x, k))
  (at level 10, x pattern, m at level 100, k at level 200) : st_scope.
Notation "m >> k" := (bind m (λ _, k))
  (at level 100, k at level 200, right associativity) : st_scope.
#[local] Open Scope st_scope.

Definition when {S} (b : bool) (m : ST S unit) : ST S unit :=
  if b then m else ret tt.

(** [try: body finally: fin].  The clause runs when the body returned and
    when it raised; an exception of the clause replaces the body's. *)
Definition try_finally {S A} (body : ST S A) (fin : ST S unit) : ST S A :=
  λ s, match body s with
       | (Undetermined, s1) => (Undetermined, s1)
       | (r, s1) =>
           match fin s1 with
           | (Ok _, s2) => (r, s2)
           | (Raised e, s2) => (Raised e, s2)
           | (Undetermined, s2) => (Undetermined, s2)
           end
       end.

(** [try: body except: handler else: orelse] *)
Definition try_except_else {S A B} (body : ST S A)
    (handler : exn → ST S B) (orelse : A → ST S B) : ST S B :=
  λ s, match body s with
       | (Ok a, s1) => orelse a s1
       | (Raised e, s1) => handler e s1
       | (Undetermined, s1) => (Undetermined, s1)
       end.

(** Local variables [L] beside the world. *)
Definition frame (L : Type) : Type := L * world.

Definition get_local {L} : ST (frame L) L := λ s, (Ok (fst s), s).
Definition set_local {L} (l : L) : ST (frame L) unit := λ s, (Ok tt, (l, snd s)).

(** An operation on the world, run from inside a function body. *)
Definition on_world {L A} (m : ST world A) : ST (frame L) A :=
  λ s, let '(r, w') := m (snd s) in (r, (fst s, w')).

(** The body of a function run on its initial local variables. *)
Definition with_locals {L A} (init : L) (body : ST (frame L) A) : ST world A :=
  λ w, let '(r, s') := body (init, w) in (r, snd s').

Definition log (e : event) : ST world unit := λ w, (Ok tt, emit e w).

(** A value read off the world. *)
Definition inspect {A} (f : world → A) : ST world A := λ w, (Ok (f w), w).

(** ** The configuration ([argparse]'s namespace)

    A [store_true] flag with [default=None] is [None] or [True]; the code
    only tests its truth, so it is a [bool] here, [false] for [None]. *)

Inductive lang := Lang2 | Lang3 | Lang3str.

(** The values of the [options] dictionary: the booleans of [-s], and the
    language level [parse_args] stores. *)
Inductive optval :=
| OBool (b : bool)
| OLang (l : lang).

Record options := Options {
  directives : gmap string string;
  compile_time_env : gmap string string;
  opt_options : gmap string optval;
  language_level : option lang;
  annotate : option string;
  excludes : list string;
  build : bool;
  build_inplace : bool;
  parallel : Z;
  force : bool;
  quiet : bool;
  lenient : bool;
  keep_going : bool;
  no_docstrings : bool
}.

(** ** The external collaborators

    What the module imports and calls but does not define.
    - [is_package_dir] ([Cython.Utils]).
    - [extended_iglob] ([Cython.Build.Dependencies]) composed with
      [os.path.abspath]: the absolute paths it yields, and the exception
      that ends the iteration, if one does.
    - [cythonize] ([Cython.Build.Dependencies]): the list of extensions, or
      an exception.
    - [multiprocessing.Pool(n)]: [None] when the pool starts, the exception
      otherwise; [have_multiprocessing] is false when the import failed
      (then [multiprocessing] is [None]).
    - [tempfile.mkdtemp]: the random part of the name, or [None] when it
      raises.
    - [distutils.core.setup]: the directories the build leaves behind and
      the exception it raised, if any.  A build adds build products; it
      removes no directory that was there and does not change the working
      directory of the process.
    - [Options.parse_directive_list], [Options.parse_compile_time_env]
      ([Cython.Compiler.Options]): the new dictionary, or [None] when they
      raise [ValueError].
    - [parallel_compiles]: [int(multiprocessing.cpu_count() * 1.5)], or 0. *)
Record Env := {
  is_package_dir : string → bool;
  extended_iglob : string → world → list string * option exn;
  cythonize : list string → options → world → result (list Extension);
  multiprocessing_Pool : Z → world → option exn;
  have_multiprocessing : bool;
  mkdtemp_name : string → world → option string;
  setup : list string → list Extension → world → list string * option exn;
  parse_directive_list : string → gmap string string → option (gmap string string);
  parse_compile_time_env : string → gmap string string → option (gmap string string);
  parallel_compiles : Z
}.

(** ** [os], [tempfile], [shutil] *)

(** [os.getcwd()]: fails when the working directory is gone. *)
Definition os_getcwd : ST world string :=
  λ w, if isdir (cwd w) w then (Ok (cwd w), w)
       else (Raised (OSError "getcwd"), w).

(** [os.chdir(d)]: fails unless [d] is a directory. *)
Definition os_chdir (d : string) : ST world unit :=
  λ w, if isdir d w then (Ok tt, emit (Chdir d) (set_cwd d w))
       else (Raised (OSError "chdir"), w).

Definition os_path_isdir (p : string) : ST world bool := inspect (isdir p).

(** [shutil.rmtree(p)]: [p] and what is below it are gone. *)
Definition shutil_rmtree (p : string) : ST world unit :=
  λ w, (Ok tt,
        emit (Rmtree p) (set_dirs (filter (λ d, within p d = false) (dirs w)) w)).

(** [bool(x)] for [x] a string or [None]. *)
Definition truthy (x : option string) : bool :=
  match x with
  | Some s => nonempty s
  | None => false
  end.

Section Orchestration.
Variable E : Env.

(** [tempfile.mkdtemp(dir=d)]: a new directory [d/tmpXXXXXXXX], one that
    did not exist; fails when [d] is no directory or no name is found. *)
Definition tempfile_mkdtemp (d : string) : ST world string :=
  λ w, match mkdtemp_name E d w with
       | Some name =>
           let t := PosixPath.join d ("tmp" +:+ name) in
           if isdir d w && negb (isdir t w)
           then (Ok t, emit (Mkdtemp t) (set_dirs ({[t]} ∪ dirs w) w))
           else (Raised (OSError "mkdtemp"), w)
       | None => (Raised (OSError "mkdtemp"), w)
       end.

(** [setup(script_name='setup.py', script_args=..., ext_modules=...)] *)
Definition distutils_setup (script_args : list string)
    (ext_modules : list Extension) : ST world unit :=
  λ w, let '(made, failure) := setup E script_args ext_modules w in
       let w' := emit (Setup script_args ext_modules)
                   (set_dirs (list_to_set made ∪ dirs w) w) in
       match failure with
       | None => (Ok tt, w')
       | Some e => (Raised e, w')
       end.

(** *** [run_distutils]
<<
  def run_distutils(args):
      base_dir, ext_modules = args
      script_args = ['build_ext', '-i']
      cwd = os.getcwd()
      temp_dir = None
      try:
          if base_dir:
              os.chdir(base_dir)
              temp_dir = tempfile.mkdtemp(dir=base_dir)
              script_args.extend(['--build-temp', temp_dir])
          setup(
              script_name='setup.py',
              script_args=script_args,
              ext_modules=ext_modules,
          )
      finally:
          if base_dir:
              os.chdir(cwd)
              if temp_dir and os.path.isdir(temp_dir):
                  shutil.rmtree(temp_dir)
>> *)
Record rd_locals := RdLocals {
  script_args : list string;
  temp_dir : option string
}.

Definition run_distutils_try (base_dir : option string)
    (ext_modules : list Extension) : ST (frame rd_locals) unit :=
  (if truthy base_dir then
     let b := default "" base_dir in
     on_world (os_chdir b) >>
     let* t := on_world (tempfile_mkdtemp b) in
     let* l := get_local in
     set_local (RdLocals (script_args l) (Some t)) >>
     let* l := get_local in
     set_local (RdLocals (script_args l ++ ["--build-temp"; t]) (temp_dir l))
   else ret tt) >>
  let* l := get_local in
  on_world (distutils_setup (script_args l) ext_modules).

Definition run_distutils_finally (base_dir : option string) (cwd0 : string)
  : ST (frame rd_locals) unit :=
  if truthy base_dir then
    on_world (os_chdir cwd0) >>
    let* l := get_local in
    if truthy (temp_dir l) then
      let t := default "" (temp_dir l) in
      let* d := on_world (os_path_isdir t) in
      if d then on_world (shutil_rmtree t) else ret tt
    else ret tt
  else ret tt.

Definition run_distutils (args : job) : ST world unit :=
  let '(base_dir, ext_modules) := args in
  log (RunDistutils args) >>
  let* cwd0 := os_getcwd in
  with_locals (RdLocals ["build_ext"; "-i"] None)
    (try_finally (run_distutils_try base_dir ext_modules)
                 (run_distutils_finally base_dir cwd0)).

(** *** The pool

    [multiprocessing.Pool(n)]; with [multiprocessing = None] the
    attribute lookup raises. *)
Definition new_Pool (n : Z) : ST world pool :=
  λ w, if have_multiprocessing E then
         match multiprocessing_Pool E n w with
         | None =>
             (Ok (RealPool (pools_made w)),
              emit (PoolNew n (pools_made w)) (count_pool w))
         | Some e => (Raised e, w)
         end
       else (Raised (PyException "AttributeError"), w).

(** [for x in xs: f(x)] *)
Fixpoint for_each {S A} (f : A → ST S unit) (xs : list A) : ST S unit :=
  match xs with
  | [] => ret tt
  | x :: r => f x >> for_each f r
  end.

(** [pool.map_async(run_distutils, jobs)].  A real pool queues the jobs
    for its workers and returns at once; nothing waits for a result.
    [_FakePool.map_async] runs through [imap(func, args)] in the caller. *)
Definition pool_map_async (p : pool) (jobs : list job) : ST world unit :=
  log (MapAsync p jobs) >>
  match p with
  | RealPool _ => ret tt
  | FakePool => for_each run_distutils jobs
  end.

Definition pool_terminate (p : pool) : ST world unit := log (Terminate p).
Definition pool_close (p : pool) : ST world unit := log (Close p).
Definition pool_join (p : pool) : ST world unit := log (Join p).

(** *** [cython_compile]
<<
  def cython_compile(path_pattern, options):
      pool = None
      all_paths = map(os.path.abspath, extended_iglob(path_pattern))
      try:
          for path in all_paths:
              if options.build_inplace:
                  base_dir = path
                  while not os.path.isdir(base_dir) or is_package_dir(base_dir):
                      base_dir = os.path.dirname(base_dir)
              else:
                  base_dir = None

              if os.path.isdir(path):
                  # recursively compiling a package
                  paths = [os.path.join(path, '**', '*.{py,pyx}')]
              else:
                  # assume it's a file(-like thing)
                  paths = [path]

              ext_modules = cythonize(paths, nthreads=options.parallel, ...)

              if ext_modules and options.build:
                  if len(ext_modules) > 1 and options.parallel > 1:
                      if pool is None:
                          try:
                              pool = multiprocessing.Pool(options.parallel)
                          except OSError:
                              pool = _FakePool()
                      pool.map_async(run_distutils, [
                          (base_dir, [ext]) for ext in ext_modules])
                  else:
                      run_distutils((base_dir, ext_modules))
      except:
          if pool is not None:
              pool.terminate()
          raise
      else:
          if pool is not None:
              pool.close()
              pool.join()
>> *)

(** The [while] loop that climbs from [path] to the directory the
    in-place build runs in. *)
Fixpoint climb (fuel : nat) (base_dir : string) (w : world) : option string :=
  match fuel with
  | O => None
  | S fuel' =>
      if negb (isdir base_dir w) || is_package_dir E base_dir
      then climb fuel' (PosixPath.dirname base_dir) w
      else Some base_dir
  end.

Definition choose_base_dir (fuel : nat) (opts : options) (path : string)
  : ST world (option string) :=
  λ w, if build_inplace opts then
         match climb fuel path w with
         | Some b => (Ok (Some b), w)
         | None => (Undetermined, w)
         end
       else (Ok None, w).

(** [cythonize(paths, nthreads=options.parallel, ...)]: the call passes
    the fields of the namespace; the model hands over the namespace. *)
Definition call_cythonize (paths : list string) (opts : options)
  : ST world (list Extension) :=
  λ w, (cythonize E paths opts w, emit (Cythonize paths) w).

(** [if pool is None: try: pool = multiprocessing.Pool(...)
    except OSError: pool = _FakePool()] *)
Definition ensure_pool (opts : options) : ST (frame (option pool)) unit :=
  let* p := get_local in
  match p with
  | Some _ => ret tt
  | None =>
      try_except_else (on_world (new_Pool (parallel opts)))
        (λ e, if is_OSError e
              then on_world (log FakePoolNew) >> set_local (Some FakePool)
              else raise e)
        (λ p, set_local (Some p))
  end.

(** [if ext_modules and options.build: ...] *)
Definition dispatch (opts : options) (base_dir : option string)
    (ext_modules : list Extension) : ST (frame (option pool)) unit :=
  if bool_decide (ext_modules ≠ []) && build opts then
    if bool_decide (1 < length ext_modules)%nat
       && bool_decide (1 < parallel opts)%Z
    then
      ensure_pool opts >>
      let* p := get_local in
      match p with
      | Some p =>
          on_world (pool_map_async p (map (λ ext, (base_dir, [ext])) ext_modules))
      | None => raise (PyException "AttributeError")
      end
    else on_world (run_distutils (base_dir, ext_modules))
  else ret tt.

(** [paths]: the pattern handed to [cythonize] for [path]. *)
Definition translation_paths (path : string) (w : world) : list string :=
  if isdir path w
  then [PosixPath.join (PosixPath.join path "**") "*.{py,pyx}"]
  else [path].

(** The body of [for path in all_paths]. *)
Definition compile_path (fuel : nat) (opts : options) (path : string)
  : ST (frame (option pool)) unit :=
  let* base_dir := on_world (choose_base_dir fuel opts path) in
  let* paths := on_world (inspect (translation_paths path)) in
  let* ext_modules := on_world (call_cythonize paths opts) in
  dispatch opts base_dir ext_modules.

(** [for path in all_paths: body(path)], the iterator ending in
    [StopIteration] or in the exception [ending]. *)
Fixpoint for_paths {S} (body : string → ST S unit) (all_paths : list string)
    (ending : option exn) : ST S unit :=
  match all_paths with
  | [] => match ending with
          | None => ret tt
          | Some e => raise e
          end
  | path :: rest => body path >> for_paths body rest ending
  end.

Definition cython_compile (fuel : nat) (path_pattern : string) (opts : options)
  : ST world unit :=
  with_locals (None : option pool)
    (let* all_paths := on_world (inspect (extended_iglob E path_pattern)) in
     try_except_else
       (for_paths (compile_path fuel opts) (fst all_paths) (snd all_paths))
       (λ e,
          let* p := get_local in
          match p with
          | Some p => on_world (pool_terminate p)
          | None => ret tt
          end >>
          raise e)
       (λ _,
          let* p := get_local in
          match p with
          | Some p => on_world (pool_close p) >> on_world (pool_join p)
          | None => ret tt
          end)).
End Orchestration.

(** ** The argument parser

    String helpers of the parser and its actions. *)

(** [s.startswith('-')] *)
Definition starts_with_dash (s : string) : bool :=
  match s with
  | String c _ => Ascii.eqb c "-"%char
  | EmptyString => false
  end.

(** [s.split(sep)] for a one-character separator *)
Fixpoint split_on (sep : ascii) (s : string) : list string :=
  match s with
  | EmptyString => [EmptyString]
  | String c r =>
      if Ascii.eqb c sep then EmptyString :: split_on sep r
      else match split_on sep r with
           | h :: t => String c h :: t
           | [] => [String c EmptyString]
           end
  end.

(** [s.split('=', 1)] when ['=' in s], [None] otherwise *)
Fixpoint split_eq (s : string) : option (string * string) :=
  match s with
  | EmptyString => None
  | String c r =>
      if Ascii.eqb c "="%char then Some (EmptyString, r)
      else match split_eq r with
           | Some (n, v) => Some (String c n, v)
           | None => None
           end
  end.

Definition lower_ascii (c : ascii) : ascii :=
  let n := nat_of_ascii c in
  if (65 <=? n)%nat && (n <=? 90)%nat then ascii_of_nat (n + 32) else c.

(** [s.lower()], on ASCII letters *)
Fixpoint lower (s : string) : string :=
  match s with
  | EmptyString => EmptyString
  | String c r => String (lower_ascii c) (lower r)
  end.

Definition digit (c : ascii) : option Z :=
  let n := nat_of_ascii c in
  if (48 <=? n)%nat && (n <=? 57)%nat then Some (Z.of_nat (n - 48)) else None.

Fixpoint int_digits (acc : Z) (s : string) : option Z :=
  match s with
  | EmptyString => Some acc
  | String c r =>
      match digit c with
      | Some d => int_digits (10 * acc + d) r
      | None => None
      end
  end.

(** [int(s)] for [s] a non-empty run of decimal digits; the other
    spellings [int] accepts are left out ([None]). *)
Definition int_of_digits (s : string) : option Z :=
  if nonempty s then int_digits 0 s else None.

(** The outcome of parsing: a namespace, [parser.error] (usage message and
    [SystemExit(2)]), an exception out of an action, or an argument list
    the model does not cover. *)
Inductive parsed (A : Type) :=
| Parsed (a : A)
| ParserError (message : string)
| ActionRaised (e : exn)
| OutsideFragment.
Arguments Parsed {A} a.
Arguments ParserError {A} message.
Arguments ActionRaised {A} e.
Arguments OutsideFragment {A}.

(** The [store_true] destinations. *)
Inductive switch :=
| Build | BuildInplace | Force | Quiet | Lenient | KeepGoing | NoDocstrings.

(** What an option does when it is met. *)
Inductive action :=
| ParseDirectivesAction
| ParseCompileTimeEnvAction
| ParseOptionsAction
| StoreLanguageLevel (const : lang)
| StoreAnnotate (const : string)
| AppendExclude
| StoreTrue (dest : switch)
| StoreParallel.

(** [create_args_parser]: the [add_argument] calls with option strings, in
    the order of the source. *)
Definition arguments : list (list string * action) :=
  [ (["-X"; "--directive"], ParseDirectivesAction);
    (["-E"; "--compile-time-env"], ParseCompileTimeEnvAction);
    (["-s"; "--option"], ParseOptionsAction);
    (["-2"], StoreLanguageLevel Lang2);
    (["-3"], StoreLanguageLevel Lang3);
    (["--3str"], StoreLanguageLevel Lang3str);
    (["-a"; "--annotate"], StoreAnnotate "default");
    (["--annotate-fullc"], StoreAnnotate "fullc");
    (["-x"; "--exclude"], AppendExclude);
    (["-b"; "--build"], StoreTrue Build);
    (["-i"; "--inplace"], StoreTrue BuildInplace);
    (["-j"; "--parallel"], StoreParallel);
    (["-f"; "--force"], StoreTrue Force);
    (["-q"; "--quiet"], StoreTrue Quiet);
    (["--lenient"], StoreTrue Lenient);
    (["-k"; "--keep-going"], StoreTrue KeepGoing);
    (["--no-docstrings"], StoreTrue NoDocstrings) ].

(** The action registered under an option string. *)
Definition option_action (opt : string) : option action :=
  snd <$> find (λ entry, existsb (String.eqb opt) (fst entry)) arguments.

(** Whether the action consumes one argument ([nargs=None] with a value)
    or none ([store_const], [store_true]). *)
Definition takes_value (a : action) : bool :=
  match a with
  | ParseDirectivesAction | ParseCompileTimeEnvAction | ParseOptionsAction
  | AppendExclude | StoreParallel => true
  | StoreLanguageLevel _ | StoreAnnotate _ | StoreTrue _ => false
  end.

(** Field updates of the namespace. *)
Definition with_directives v (o : options) : options :=
  Options v (compile_time_env o) (opt_options o) (language_level o) (annotate o)
    (excludes o) (build o) (build_inplace o) (parallel o) (force o) (quiet o)
    (lenient o) (keep_going o) (no_docstrings o).
Definition with_compile_time_env v (o : options) : options :=
  Options (directives o) v (opt_options o) (language_level o) (annotate o)
    (excludes o) (build o) (build_inplace o) (parallel o) (force o) (quiet o)
    (lenient o) (keep_going o) (no_docstrings o).
Definition with_opt_options v (o : options) : options :=
  Options (directives o) (compile_time_env o) v (language_level o) (annotate o)
    (excludes o) (build o) (build_inplace o) (parallel o) (force o) (quiet o)
    (lenient o) (keep_going o) (no_docstrings o).
Definition with_language_level v (o : options) : options :=
  Options (directives o) (compile_time_env o) (opt_options o) v (annotate o)
    (excludes o) (build o) (build_inplace o) (parallel o) (force o) (quiet o)
    (lenient o) (keep_going o) (no_docstrings o).
Definition with_annotate v (o : options) : options :=
  Options (directives o) (compile_time_env o) (opt_options o) (language_level o) v
    (excludes o) (build o) (build_inplace o) (parallel o) (force o) (quiet o)
    (lenient o) (keep_going o) (no_docstrings o).
Definition with_excludes v (o : options) : options :=
  Options (directives o) (compile_time_env o) (opt_options o) (language_level o)
    (annotate o) v (build o) (build_inplace o) (parallel o) (force o) (quiet o)
    (lenient o) (keep_going o) (no_docstrings o).
Definition with_build v (o : options) : options :=
  Options (directives o) (compile_time_env o) (opt_options o) (language_level o)
    (annotate o) (excludes o) v (build_inplace o) (parallel o) (force o) (quiet o)
    (lenient o) (keep_going o) (no_docstrings o).
Definition with_build_inplace v (o : options) : options :=
  Options (directives o) (compile_time_env o) (opt_options o) (language_level o)
    (annotate o) (excludes o) (build o) v (parallel o) (force o) (quiet o)
    (lenient o) (keep_going o) (no_docstrings o).
Definition with_parallel v (o : options) : options :=
  Options (directives o) (compile_time_env o) (opt_options o) (language_level o)
    (annotate o) (excludes o) (build o) (build_inplace o) v (force o) (quiet o)
    (lenient o) (keep_going o) (no_docstrings o).
Definition with_force v (o : options) : options :=
  Options (directives o) (compile_time_env o) (opt_options o) (language_level o)
    (annotate o) (excludes o) (build o) (build_inplace o) (parallel o) v (quiet o)
    (lenient o) (keep_going o) (no_docstrings o).
Definition with_quiet v (o : options) : options :=
  Options (directives o) (compile_time_env o) (opt_options o) (language_level o)
    (annotate o) (excludes o) (build o) (build_inplace o) (parallel o) (force o) v
    (lenient o) (keep_going o) (no_docstrings o).
Definition with_lenient v (o : options) : options :=
  Options (directives o) (compile_time_env o) (opt_options o) (language_level o)
    (annotate o) (excludes o) (build o) (build_inplace o) (parallel o) (force o)
    (quiet o) v (keep_going o) (no_docstrings o).
Definition with_keep_going v (o : options) : options :=
  Options (directives o) (compile_time_env o) (opt_options o) (language_level o)
    (annotate o) (excludes o) (build o) (build_inplace o) (parallel o) (force o)
    (quiet o) (lenient o) v (no_docstrings o).
Definition with_no_docstrings v (o : options) : options :=
  Options (directives o) (compile_time_env o) (opt_options o) (language_level o)
    (annotate o) (excludes o) (build o) (build_inplace o) (parallel o) (force o)
    (quiet o) (lenient o) (keep_going o) v.

Definition store_true (dest : switch) : options → options :=
  match dest with
  | Build => with_build true
  | BuildInplace => with_build_inplace true
  | Force => with_force true
  | Quiet => with_quiet true
  | Lenient => with_lenient true
  | KeepGoing => with_keep_going true
  | NoDocstrings => with_no_docstrings true
  end.

(** [ParseOptionsAction.__call__]:
<<
    options = dict(getattr(namespace, self.dest, {}))
    for opt in values.split(','):
        if '=' in opt:
            n, v = opt.split('=', 1)
            v = v.lower() not in ('false', 'f', '0', 'no')
        else:
            n, v = opt, True
        options[n] = v
    setattr(namespace, self.dest, options)
>> *)
Definition parse_option (opt : string) : string * bool :=
  match split_eq opt with
  | Some (n, v) =>
      (n, negb (existsb (String.eqb (lower v)) ["false"; "f"; "0"; "no"]))
  | None => (opt, true)
  end.

Definition parse_options_action (values : string) (o : options) : options :=
  with_opt_options
    (foldl (λ (d : gmap string optval) opt,
              let '(n, v) := parse_option opt in <[n := OBool v]> d)
           (opt_options o) (split_on ","%char values))
    o.

(** Whether the positional [sources] ([nargs='*']) has taken its
    arguments: it takes the first unbroken run of positional arguments;
    later ones are left over ([unknown] in [parse_args_raw]). *)
Inductive positional_state := Pending | Filling | Consumed.

Definition after_option (st : positional_state) : positional_state :=
  match st with
  | Pending => Pending
  | Filling | Consumed => Consumed
  end.

Definition parsed_bind {A B} (m : parsed A) (k : A → parsed B) : parsed B :=
  match m with
  | Parsed a => k a
  | ParserError msg => ParserError msg
  | ActionRaised e => ActionRaised e
  | OutsideFragment => OutsideFragment
  end.

Section Parser.
Variable E : Env.

(** The namespace before any argument is read: the [default=] of each
    [add_argument]. *)
Definition defaults : options :=
  {| directives := ∅; compile_time_env := ∅; opt_options := ∅;
     language_level := None; annotate := None; excludes := [];
     build := false; build_inplace := false;
     parallel := parallel_compiles E;
     force := false; quiet := false; lenient := false;
     keep_going := false; no_docstrings := false |}.

(** An action called with the argument it consumed ([value] is unused
    by the actions that consume none). *)
Definition call_action (a : action) (value : string) (ns : options)
  : parsed options :=
  match a with
  | ParseDirectivesAction =>
      match parse_directive_list E value (directives ns) with
      | Some d => Parsed (with_directives d ns)
      | None => ActionRaised (PyException "ValueError")
      end
  | ParseCompileTimeEnvAction =>
      match parse_compile_time_env E value (compile_time_env ns) with
      | Some d => Parsed (with_compile_time_env d ns)
      | None => ActionRaised (PyException "ValueError")
      end
  | ParseOptionsAction => Parsed (parse_options_action value ns)
  | StoreLanguageLevel l => Parsed (with_language_level (Some l) ns)
  | StoreAnnotate c => Parsed (with_annotate (Some c) ns)
  | AppendExclude => Parsed (with_excludes (excludes ns ++ [value]) ns)
  | StoreTrue dest => Parsed (store_true dest ns)
  | StoreParallel =>
      match int_of_digits value with
      | Some n => Parsed (with_parallel n ns)
      | None => OutsideFragment
      end
  end.

(** [parser.parse_known_args(args)] on the modelled fragment: every
    argument that starts with ['-'] is exactly one of the option strings
    (no abbreviation, no [--opt=value], no clustered short flags, no
    ['--']), the argument of [-j] is a run of digits.  Arguments are read
    left to right; an option that takes a value needs a next argument
    that does not start with ['-']. *)
Fixpoint parse_known (args : list string) (st : positional_state)
    (ns : options) (sources unknown : list string)
  : parsed (options * list string * list string) :=
  match args with
  | [] => Parsed (ns, sources, unknown)
  | a :: rest =>
      if starts_with_dash a then
        match option_action a with
        | None => OutsideFragment
        | Some act =>
            if takes_value act then
              match rest with
              | v :: rest' =>
                  if starts_with_dash v
                  then ParserError "expected one argument"
                  else
                    match call_action act v ns with
                    | Parsed ns' =>
                        parse_known rest' (after_option st) ns' sources unknown
                    | ParserError msg => ParserError msg
                    | ActionRaised e => ActionRaised e
                    | OutsideFragment => OutsideFragment
                    end
              | [] => ParserError "expected one argument"
              end
            else
              match call_action act EmptyString ns with
              | Parsed ns' =>
                  parse_known rest (after_option st) ns' sources unknown
              | ParserError msg => ParserError msg
              | ActionRaised e => ActionRaised e
              | OutsideFragment => OutsideFragment
              end
        end
      else
        match st with
        | Consumed => parse_known rest Consumed ns sources (unknown ++ [a])
        | Pending | Filling =>
            parse_known rest Filling ns (sources ++ [a]) unknown
        end
  end.

Definition in_fragment (a : string) : bool :=
  negb (starts_with_dash a) || bool_decide (is_Some (option_action a)).

Definition parse_known_args (args : list string)
  : parsed (options * list string * list string) :=
  if forallb in_fragment args
  then parse_known args Pending defaults [] []
  else OutsideFragment.

(** [parse_args_raw]
<<
  options, unknown = parser.parse_known_args(args)
  sources = options.sources
  # if positional arguments were interspersed
  # some of them are in unknown
  for option in unknown:
      if option.startswith('-'):
          parser.error("unknown option "+option)
      else:
          sources.append(option)
  del options.sources
  return (options, sources)
>> *)
Fixpoint collect_unknown (unknown sources : list string) : parsed (list string) :=
  match unknown with
  | [] => Parsed sources
  | option :: rest =>
      if starts_with_dash option
      then ParserError ("unknown option " +:+ option)
      else collect_unknown rest (sources ++ [option])
  end.

Definition parse_args_raw (args : list string) : parsed (options * list string) :=
  parsed_bind (parse_known_args args) (λ '(opts, sources, unknown),
  parsed_bind (collect_unknown unknown sources) (λ sources,
  Parsed (opts, sources))).

(** [parse_args]
<<
  parser = create_args_parser()
  options, args = parse_args_raw(parser, args)
  if not args:
      parser.error("no source files provided")
  if options.build_inplace:
      options.build = True
  if multiprocessing is None:
      options.parallel = 0
  if options.language_level:
      assert options.language_level in (2, 3, '3str')
      options.options['language_level'] = options.language_level
  return options, args
>> *)
Definition parse_args (args : list string) : parsed (options * list string) :=
  parsed_bind (parse_args_raw args) (λ '(opts, args),
  match args with
  | [] => ParserError "no source files provided"
  | _ :: _ =>
      let opts := if build_inplace opts then with_build true opts else opts in
      let opts := if have_multiprocessing E then opts else with_parallel 0 opts in
      let opts :=
        match language_level opts with
        | Some l =>
            with_opt_options (<["language_level" := OLang l]> (opt_options opts)) opts
        | None => opts
        end in
      Parsed (opts, args)
  end).

(** [main]
<<
  options, paths = parse_args(args)
  if options.lenient:
      Options.error_on_unknown_names = False
      Options.error_on_uninitialized = False
  if options.annotate:
      Options.annotate = True
  if options.no_docstrings:
      Options.docstrings = False
  for path in paths:
      cython_compile(path, options)
>> *)
Definition update_flags (f : compiler_flags → compiler_flags) : ST world unit :=
  λ w, (Ok tt, set_flags (f (flags w)) w).

Definition main (fuel : nat) (args : list string) : ST world unit :=
  match parse_args args with
  | Parsed (opts, paths) =>
      when (lenient opts)
        (update_flags (λ f, CompilerFlags false false (flag_annotate f) (docstrings f))) >>
      when (bool_decide (is_Some (annotate opts)))
        (update_flags (λ f, CompilerFlags (error_on_unknown_names f)
                              (error_on_uninitialized f) true (docstrings f))) >>
      when (no_docstrings opts)
        (update_flags (λ f, CompilerFlags (error_on_unknown_names f)
                              (error_on_uninitialized f) (flag_annotate f) false)) >>
      for_each (λ path, cython_compile E fuel path opts) paths
  | ParserError _ => raise (SystemExit 2)
  | ActionRaised e => raise e
  | OutsideFragment => λ w, (Undetermined, w)
  end.
End Parser.

(** ** Vocabulary of the properties *)

(** The calls made between two worlds of one run. *)
Definition during (w w' : world) : list event :=
  drop (length (trace w)) (trace w').

Definition is_pool_creation (e : event) : bool :=
  match e with
  | PoolNew _ _ | FakePoolNew => true
  | _ => false
  end.

(** [e] is the creation of the pool [p]. *)
Definition creates (p : pool) (e : event) : bool :=
  match p, e with
  | RealPool id, PoolNew _ id' => Nat.eqb id id'
  | FakePool, FakePoolNew => true
  | _, _ => false
  end.

Definition is_submission (e : event) : bool :=
  match e with
  | MapAsync _ _ => true
  | _ => false
  end.

Definition is_shutdown (e : event) : bool :=
  match e with
  | Terminate _ | Close _ | Join _ => true
  | _ => false
  end.

(** A change of working directory, or a temporary directory made or
    removed. *)
Definition is_switch (e : event) : bool :=
  match e with
  | Chdir _ | Mkdtemp _ | Rmtree _ => true
  | _ => false
  end.

(** The build jobs an event carries: the job of a direct call of
    [run_distutils], the jobs submitted to a pool. *)
Definition jobs_of (e : event) : list job :=
  match e with
  | RunDistutils j => [j]
  | MapAsync _ js => js
  | _ => []
  end.

(** The jobs [run_distutils] was entered with in the calling thread, in
    order. *)
Definition sync_jobs (l : list event) : list job :=
  omap (λ e, match e with RunDistutils j => Some j | _ => None end) l.

(** The pool that submissions of an event go to is [p]. *)
Definition submits_to (p : pool) (e : event) : Prop :=
  match e with
  | MapAsync q _ => q = p
  | _ => True
  end.

(** The base directory of a job agrees with the in-place option. *)
Definition job_ok (opts : options) (j : job) : Prop :=
  fst j = None ↔ build_inplace opts = false.

(** Every creation of a pool is followed at once by the submission, to
    that pool, of more than one job. *)
Fixpoint lazily (l : list event) : Prop :=
  match l with
  | [] => True
  | e :: r =>
      (is_pool_creation e = true →
       match r with
       | MapAsync p jobs :: _ => creates p e = true ∧ (1 < length jobs)%nat
       | _ => False
       end) ∧
      lazily r
  end.

(** What holds of the calls [l] of one [cython_compile] so far, with
    [pool] bound to [pv]. *)
Definition pool_inv (opts : options) (pv : option pool) (l : list event) : Prop :=
  Forall (λ e, is_shutdown e = false ∧ Forall (job_ok opts) (jobs_of e) ∧
               (is_pool_creation e = true → (1 < parallel opts)%Z)) l ∧
  lazily l ∧
  match pv with
  | None => Forall (λ e, is_pool_creation e = false ∧ is_submission e = false) l
  | Some p =>
      existsb (creates p) l = true ∧
      length (filter (λ e, is_pool_creation e = true) l) = 1%nat ∧
      Forall (submits_to p) l
  end.

(** A call that neither creates, uses nor shuts down a pool, and whose
    job agrees with the in-place option. *)
Definition plain_call (opts : options) (e : event) : Prop :=
  is_shutdown e = false ∧ is_pool_creation e = false ∧
  is_submission e = false ∧ Forall (job_ok opts) (jobs_of e).

(** The calls that end [cython_compile] with [pool] bound to [pv]:
    [close] and [join] after the loop completed, [terminate] before an
    exception propagates. *)
Definition shutdown_calls {A} (r : result A) (pv : option pool) : list event :=
  match pv, r with
  | Some p, Ok _ => [Close p; Join p]
  | Some p, Raised _ => [Terminate p]
  | _, _ => []
  end.

(** The state of a [cython_compile] that started in [w0]: the calls made
    so far satisfy [pool_inv]. *)
Definition compile_inv (w0 : world) (opts : options) (s : frame (option pool))
  : Prop :=
  ∃ l, trace s.2 = (trace w0 ++ l)%list ∧ pool_inv opts s.1 l.

(** The language level the last of [-2], [-3], [--3str] in [args] asks
    for. *)
Definition lang_of_flag (a : string) : option lang :=
  if String.eqb a "-2" then Some Lang2
  else if String.eqb a "-3" then Some Lang3
  else if String.eqb a "--3str" then Some Lang3str
  else None.

Definition last_language_flag (args : list string) : option lang :=
  last (omap lang_of_flag args).

(** Pool creation is not available to [dispatch]: the substitute is
    already bound, or [multiprocessing.Pool] raises [OSError] now. *)
Definition pool_unavailable (E : Env) (opts : options) (pv : option pool)
    (w : world) : Prop :=
  match pv with
  | Some p => p = FakePool
  | None =>
      have_multiprocessing E = true ∧
      ∃ what, multiprocessing_Pool E (parallel opts) w = Some (OSError what)
  end.

(** What [run_distutils] does after it is entered with [args]: it changes
    directory and makes a temporary directory only for a base directory
    that is set, and calls [setup] with [build_ext -i]. *)
Definition build_step (args : job) (e : event) : Prop :=
  match e with
  | Chdir _ | Mkdtemp _ | Rmtree _ => truthy (fst args) = true
  | Setup script_args ext_modules =>
      ext_modules = snd args ∧
      ∃ rest, script_args = "build_ext" :: "-i" :: rest ∧
              (truthy (fst args) = false → rest = [])
  | _ => False
  end.

(** Postconditions.

    [post m s Q]: the result and the final state of [m] run from [s]
    satisfy [Q]. *)
Definition post {S A} (m : ST S A) (s : S) (Q : result A → S → Prop) : Prop :=
  Q (m s).1 (m s).2.

(** ** Vocabulary of the further properties *)

(** The arguments of a command line that are neither options nor the
    values of options, in order. *)
Fixpoint positionals (args : list string) : list string :=
  match args with
  | [] => []
  | a :: rest =>
      if starts_with_dash a then
        match option_action a with
        | Some act =>
            if takes_value act then
              match rest with
              | _ :: rest' => positionals rest'
              | [] => []
              end
            else positionals rest
        | None => positionals rest
        end
      else a :: positionals rest
  end.

(** The actions a command line calls, each with the value it consumes
    (none for the flags), in order. *)
Fixpoint option_calls (args : list string) : list (action * string) :=
  match args with
  | [] => []
  | a :: rest =>
      if starts_with_dash a then
        match option_action a with
        | Some act =>
            if takes_value act then
              match rest with
              | v :: rest' => (act, v) :: option_calls rest'
              | [] => []
              end
            else (act, EmptyString) :: option_calls rest
        | None => []
        end
      else option_calls rest
  end.

(** The degrees given with [-j], and the patterns given with [-x]. *)
Definition parallel_values (args : list string) : list Z :=
  omap (λ call, match call.1 with
                | StoreParallel => int_of_digits call.2
                | _ => None
                end) (option_calls args).

Definition exclude_values (args : list string) : list string :=
  omap (λ call, match call.1 with
                | AppendExclude => Some call.2
                | _ => None
                end) (option_calls args).

(** The value of a [store_true] destination in the namespace. *)
Definition switch_value (dest : switch) (o : options) : bool :=
  match dest with
  | Build => build o
  | BuildInplace => build_inplace o
  | Force => force o
  | Quiet => quiet o
  | Lenient => lenient o
  | KeepGoing => keep_going o
  | NoDocstrings => no_docstrings o
  end.

(** The options of [-s values], name and boolean, in the order given. *)
Definition option_pairs (values : string) : list (string * bool) :=
  map parse_option (split_on ","%char values).

(** The last value given for [name]. *)
Definition last_value (name : string) (pairs : list (string * bool)) : option bool :=
  snd <$> last (filter (λ nv, nv.1 = name) pairs).

(** ['=' not in s] *)
Fixpoint no_equals (s : string) : bool :=
  match s with
  | EmptyString => true
  | String c r => negb (Ascii.eqb c "="%char) && no_equals r
  end.


Definition is_translation (e : event) : bool :=
  match e with Cythonize _ => true | _ => false end.

Definition is_build (e : event) : bool :=
  match e with Setup _ _ => true | _ => false end.

(** A call that involves no pool: no creation, submission or shutdown. *)
Definition pool_free (e : event) : bool :=
  negb (is_pool_creation e || is_submission e || is_shutdown e).

(** The world [w] after the calls [l], nothing else changed. *)
Definition after_calls (w : world) (l : list event) : world :=
  World (cwd w) (dirs w) (trace w ++ l)%list (pools_made w) (flags w).

(** What no call of the module changes for good: the working directory
    and the compiler flags. *)
Definition kept (w w' : world) : Prop := cwd w' = cwd w ∧ flags w' = flags w.

(** The state of a [cython_compile] that started in [w] and has only
    translated: [pool] is unbound and the world is [w] after calls of the
    translator. *)
Definition translated (w : world) (s : frame (option pool)) : Prop :=
  s.1 = None ∧
  ∃ l, s.2 = after_calls w l ∧ Forall (λ e, is_translation e = true) l.

(** The real pool [dispatch] submits to, and the world it is in when the
    submission is made: the pool already bound, or the one
    [multiprocessing.Pool] starts now. *)
Definition real_pool_ready (E : Env) (opts : options) (pv : option pool)
    (w : world) : option (pool * world) :=
  match pv with
  | Some (RealPool id) => Some (RealPool id, w)
  | Some FakePool => None
  | None =>
      if have_multiprocessing E then
        match multiprocessing_Pool E (parallel opts) w with
        | None =>
            Some (RealPool (pools_made w),
                  emit (PoolNew (parallel opts) (pools_made w)) (count_pool w))
        | Some _ => None
        end
      else None
  end.

(** ** Sample environments and worlds

    A tree [/w], [/w/pkg] with [/w/pkg] a package; every pattern is one
    path; the translator returns [units]; [pool_ok] and [setup_ok] decide
    whether a pool starts and whether the build succeeds. *)
Definition sample_env (units : list Extension) (pool_ok setup_ok : bool) : Env :=
  {| is_package_dir := String.eqb "/w/pkg";
     extended_iglob := λ pattern _, ([pattern], None);
     cythonize := λ _ _ _, Ok units;
     multiprocessing_Pool := λ _ _,
       if pool_ok then None else Some (OSError "no semaphores");
     have_multiprocessing := true;
     mkdtemp_name := λ _ _, Some "k3x9";
     setup := λ _ _ _,
       if setup_ok then (["/w/build"], None)
       else ([], Some (SystemExit 1));
     parse_directive_list := λ _ d, Some d;
     parse_compile_time_env := λ _ d, Some d;
     parallel_compiles := 3 |}.

Definition sample_world : world :=
  {| cwd := "/w";
     dirs := list_to_set ["/"; "/w"; "/w/pkg"];
     trace := [];
     pools_made := 0;
     flags := CompilerFlags true true false true |}.

Definition sample_options (inplace : bool) (n : Z) : options :=
  {| directives := ∅; compile_time_env := ∅; opt_options := ∅;
     language_level := None; annotate := None; excludes := [];
     build := true; build_inplace := inplace; parallel := n;
     force := false; quiet := false; lenient := false;
     keep_going := false; no_docstrings := false |}.

(** The sample environment with two units per path, on an interpreter
    without [multiprocessing]. *)
Definition sample_env_without_multiprocessing : Env :=
  {| is_package_dir := String.eqb "/w/pkg";
     extended_iglob := λ pattern _, ([pattern], None);
     cythonize := λ _ _ _, Ok ["m1"; "m2"];
     multiprocessing_Pool := λ _ _, None;
     have_multiprocessing := false;
     mkdtemp_name := λ _ _, Some "k3x9";
     setup := λ _ _ _, (["/w/build"], None);
     parse_directive_list := λ _ d, Some d;
     parse_compile_time_env := λ _ d, Some d;
     parallel_compiles := 0 |}.

(** * Properties

    ** Strings and [posixpath] *)

#[local] Open Scope list_scope.

(** [posixpath] on concrete paths, as Python evaluates them. *)

Example split_file_in_package :
  PosixPath.split "/w/pkg/a.pyx" = ("/w/pkg", "a.pyx").
Proof. reflexivity. Qed.

Example split_below_root : PosixPath.split "/a.pyx" = ("/", "a.pyx").
Proof. reflexivity. Qed.

Example split_bare_name : PosixPath.split "a.pyx" = ("", "a.pyx").
Proof. reflexivity. Qed.

Example split_strips_trailing_separators :
  PosixPath.split "//a//b//" = ("//a//b", "").
Proof. reflexivity. Qed.

Example split_keeps_a_root_of_separators : PosixPath.split "///" = ("///", "").
Proof. reflexivity. Qed.

Example join_recursive_pattern :
  PosixPath.join (PosixPath.join "/w/pkg" "**") "*.{py,pyx}" = "/w/pkg/**/*.{py,pyx}".
Proof. reflexivity. Qed.

Example join_absolute_replaces : PosixPath.join "/w" "/x" = "/x".
Proof. reflexivity. Qed.

(** [-s] on a list of options. *)
Example parse_option_values :
  map parse_option (split_on ","%char "a=No,b,c=x,d=")
  = [("a", false); ("b", true); ("c", true); ("d", true)].
Proof. reflexivity. Qed.

Lemma append_empty s : EmptyString +:+ s = s.
Proof. reflexivity. Qed.

Lemma append_cons c r s : String c r +:+ s = String c (r +:+ s).
Proof. reflexivity. Qed.

Ltac push_append := rewrite ?append_cons, ?append_empty in *.

Lemma append_assoc a b c : (a +:+ b) +:+ c = a +:+ b +:+ c.
Proof. induction a as [|x a IH]; [done|]. by rewrite !append_cons, IH. Qed.

Lemma nonempty_app_r a b : nonempty b = true → nonempty (a +:+ b) = true.
Proof. by destruct a. Qed.

Lemma rcut_no_slash s : no_slash s = true → rcut_slash s = (EmptyString, s).
Proof.
  induction s as [|c r IH]; simpl; [done|].
  intros [Hc Hr]%andb_prop. rewrite (IH Hr). simpl.
  by destruct (is_slash c).
Qed.

Lemma rcut_after_slash h s :
  no_slash s = true → rcut_slash (h +:+ "/" +:+ s) = (h +:+ "/", s).
Proof.
  intros Hs. induction h as [|c r IH]; push_append; simpl.
  - by rewrite (rcut_no_slash _ Hs).
  - rewrite IH. by rewrite nonempty_app_r.
Qed.

Lemma ends_with_slash_inv d :
  ends_with_slash d = true → ∃ h, d = h +:+ "/".
Proof.
  induction d as [|c r IH]; simpl; [done|].
  destruct r as [|c' r'].
  - intros Hc. exists EmptyString. push_append. f_equal.
    unfold is_slash in Hc. by apply Ascii.eqb_eq in Hc as ->.
  - intros [h ->]%IH. by exists (String c h).
Qed.

Lemma rstrip_trailing d :
  ends_with_slash d = false → rstrip_slash (d +:+ "/") = d.
Proof.
  induction d as [|c r IH]; [done|].
  destruct r as [|c' r'].
  - push_append. simpl. by intros ->.
  - intros Hr. change (ends_with_slash (String c' r') = false) in Hr.
    rewrite append_cons. cbn [rstrip_slash]. by rewrite (IH Hr).
Qed.

Lemma all_slashes_ends d :
  all_slashes d = true → nonempty d = true → ends_with_slash d = true.
Proof.
  induction d as [|c r IH]; simpl; [done|].
  intros [Hc Hr]%andb_prop _. destruct r; [done|]. by apply IH.
Qed.

Lemma all_slashes_app_slash d : all_slashes (d +:+ "/") = all_slashes d.
Proof.
  induction d as [|c r IH]; push_append; simpl; [done|]. by rewrite IH.
Qed.

Lemma no_slash_starts s : no_slash s = true → starts_with_slash s = false.
Proof. destruct s; simpl; [done|]. by intros [?%negb_true_iff _]%andb_prop. Qed.

Lemma segment_ends s : segment s → ends_with_slash s = false.
Proof.
  intros [Hne Hs]. induction s as [|c r IH]; [done|]. simpl in *.
  apply andb_prop in Hs as [Hc Hr]. destruct r; [by apply negb_true_iff|].
  by apply IH.
Qed.

Lemma ends_with_slash_app a s :
  nonempty s = true → ends_with_slash (a +:+ s) = ends_with_slash s.
Proof.
  intros Hne. induction a as [|c r IH]; push_append; [done|].
  simpl. destruct (r +:+ s) eqn:Hrs; [|done].
  by destruct r, s.
Qed.

(** [split] undoes [join] on a stripped directory and a name free of
    separators. *)
Lemma split_join d s :
  stripped d → no_slash s = true → PosixPath.split (PosixPath.join d s) = (d, s).
Proof.
  intros Hd Hs. unfold PosixPath.join, PosixPath.split.
  rewrite (no_slash_starts _ Hs).
  destruct (nonempty d) eqn:Hne; simpl.
  - destruct (ends_with_slash d) eqn:He.
    + destruct Hd as [Hall|]; [|congruence].
      destruct (ends_with_slash_inv _ He) as [h ->].
      rewrite append_assoc. rewrite (rcut_after_slash _ _ Hs).
      by rewrite Hall, andb_false_r.
    + rewrite (rcut_after_slash _ _ Hs), all_slashes_app_slash.
      rewrite nonempty_app_r by done.
      destruct (all_slashes d) eqn:Hall.
      * rewrite all_slashes_ends in He; done.
      * simpl. by rewrite rstrip_trailing.
  - destruct d; [|done]. push_append. by rewrite (rcut_no_slash _ Hs).
Qed.

Lemma stripped_join d s : segment s → stripped (PosixPath.join d s).
Proof.
  intros Hs. right. unfold PosixPath.join.
  rewrite (no_slash_starts _ (proj2 Hs)).
  destruct (negb (nonempty d) || ends_with_slash d).
  - rewrite ends_with_slash_app by apply Hs. by apply segment_ends.
  - rewrite !ends_with_slash_app; [by apply segment_ends | apply Hs |].
    apply nonempty_app_r, Hs.
Qed.

Lemma slash_join_snoc segs s acc :
  slash_join (segs ++ [s]) acc = slash_join segs (s +:+ "/" +:+ acc).
Proof. induction segs as [|x r IH]; simpl; [done|]. by rewrite IH. Qed.

Lemma stripped_descend base segs :
  stripped base → Forall segment segs → stripped (descend base segs).
Proof.
  intros Hb Hs. revert base Hb. induction Hs as [|s r Hs _ IH]; intros base Hb; [done|].
  simpl. apply IH. by apply stripped_join.
Qed.

Section Walk.
Variable is_pkg : string → bool.

Lemma find_package_base_loop_chain segs : ∀ base acc fuel,
  stripped base →
  Forall segment segs →
  is_pkg base = false →
  (∀ k, (0 < k ≤ length segs)%nat → is_pkg (descend base (take k segs)) = true) →
  (length segs < fuel)%nat →
  find_package_base_loop is_pkg fuel (descend base segs) acc
  = Some (base, slash_join segs acc).
Proof.
  induction segs as [|s segs IH] using rev_ind; intros base acc fuel Hb Hsegs Hbase Hpk Hfuel.
  - destruct fuel; [lia|]. simpl. by rewrite Hbase.
  - assert (is_pkg (descend base (segs ++ [s])) = true) as Hlast.
    { rewrite <-(firstn_all (segs ++ [s])) at 1. apply Hpk.
      rewrite length_app. simpl. lia. }
    rewrite length_app in Hfuel, Hpk. simpl in Hfuel, Hpk.
    apply Forall_app in Hsegs as [Hsegs Hs%Forall_inv].
    destruct fuel as [|fuel]; [lia|]. simpl. rewrite Hlast.
    unfold descend. rewrite foldl_app. simpl.
    rewrite split_join; [|by apply stripped_descend|apply Hs].
    rewrite slash_join_snoc. apply IH; try done; [|lia].
    intros k Hk. specialize (Hpk k ltac:(lia)).
    by rewrite take_app_le in Hpk by lia.
Qed.

(** C6.  For a path [base/s1/.../sN/leaf] whose [N] directories
    [base/s1], ..., [base/s1/.../sN] are package directories and whose
    [base] is not, [find_package_base] returns, on any fuel above [N],
    the base directory [base], [N] levels above the directory of the
    leaf, and the relative path [s1/.../sN/leaf]: the consumed segment
    names in their original order, then the leaf, joined by ['/']. *)
Theorem find_package_base_chain base segs leaf fuel :
  stripped base →
  Forall segment segs →
  no_slash leaf = true →
  is_pkg base = false →
  (∀ k, (0 < k ≤ length segs)%nat → is_pkg (descend base (take k segs)) = true) →
  (length segs < fuel)%nat →
  find_package_base is_pkg fuel (PosixPath.join (descend base segs) leaf)
  = Some (base, slash_join segs leaf).
Proof.
  intros Hb Hsegs Hleaf Hbase Hpk Hfuel. unfold find_package_base.
  rewrite split_join; [|by apply stripped_descend|done].
  by apply find_package_base_loop_chain.
Qed.
End Walk.

Lemma find_package_base_chain_witness :
  find_package_base (λ d, existsb (String.eqb d) ["/w/pkg"; "/w/pkg/sub"])
    3 "/w/pkg/sub/a.pyx"
  = Some ("/w", "pkg/sub/a.pyx").
Proof.
  apply (find_package_base_chain _ "/w" ["pkg"; "sub"] "a.pyx" 3).
  - by right.
  - by repeat constructor.
  - reflexivity.
  - reflexivity.
  - intros k Hk. assert (k = 1 ∨ k = 2)%nat as [-> | ->] by (simpl in Hk; lia);
      reflexivity.
  - simpl. lia.
Defined.

(** ** Rules for postconditions *)

Section Rules.
Context {S : Type}.
Implicit Types s : S.

Lemma post_ret {A} (a : A) s Q : Q (Ok a) s → post (ret a) s Q.
Proof. done. Qed.

Lemma post_raise {A} e s (Q : result A → S → Prop) :
  Q (Raised e) s → post (raise e) s Q.
Proof. done. Qed.

Lemma post_bind {A B} (m : ST S A) (k : A → ST S B) s Q :
  post m s (λ r s',
    match r with
    | Ok a => post (k a) s' Q
    | Raised e => Q (Raised e) s'
    | Undetermined => Q Undetermined s'
    end) →
  post (bind m k) s Q.
Proof. unfold post, bind. by destruct (m s) as [[a|e|] s']. Qed.

Lemma post_mono {A} (m : ST S A) s (Q Q' : result A → S → Prop) :
  post m s Q → (∀ r s', Q r s' → Q' r s') → post m s Q'.
Proof. unfold post. auto. Qed.

Lemma post_when b (m : ST S unit) s Q :
  (b = true → post m s Q) → (b = false → Q (Ok ()) s) → post (when b m) s Q.
Proof. destruct b; unfold post; simpl; auto. Qed.

Lemma post_try_finally {A} (body : ST S A) fin s Q :
  post body s (λ r s1,
    match r with
    | Undetermined => Q Undetermined s1
    | _ =>
        post fin s1 (λ rf s2,
          match rf with
          | Ok _ => Q r s2
          | Raised e => Q (Raised e) s2
          | Undetermined => Q Undetermined s2
          end)
    end) →
  post (try_finally body fin) s Q.
Proof.
  unfold post, try_finally.
  destruct (body s) as [[a|e|] s1]; simpl; [| |done];
    by destruct (fin s1) as [[[]|e'|] s2].
Qed.

Lemma post_try_except_else {A B} (body : ST S A) (handler : exn → ST S B)
    orelse s Q :
  post body s (λ r s1,
    match r with
    | Ok a => post (orelse a) s1 Q
    | Raised e => post (handler e) s1 Q
    | Undetermined => Q Undetermined s1
    end) →
  post (try_except_else body handler orelse) s Q.
Proof. unfold post, try_except_else. by destruct (body s) as [[a|e|] s1]. Qed.
End Rules.

Lemma post_get_local {L} (s : frame L) Q : Q (Ok s.1) s → post get_local s Q.
Proof. done. Qed.

Lemma post_set_local {L} (l : L) (s : frame L) Q :
  Q (Ok ()) (l, s.2) → post (set_local l) s Q.
Proof. done. Qed.

Lemma post_on_world {L A} (m : ST world A) (s : frame L) Q :
  post m s.2 (λ r w', Q r (s.1, w')) → post (on_world m) s Q.
Proof. unfold post, on_world. by destruct (m s.2). Qed.

Lemma post_with_locals {L A} (init : L) (body : ST (frame L) A) w Q :
  post body (init, w) (λ r s', Q r s'.2) → post (with_locals init body) w Q.
Proof. unfold post, with_locals. by destruct (body (init, w)). Qed.

Lemma post_log e w Q : Q (Ok ()) (emit e w) → post (log e) w Q.
Proof. done. Qed.

Lemma post_getcwd w Q :
  (isdir (cwd w) w = true → Q (Ok (cwd w)) w) →
  (isdir (cwd w) w = false → Q (Raised (OSError "getcwd")) w) →
  post os_getcwd w Q.
Proof. unfold post, os_getcwd. destruct (isdir (cwd w) w); auto. Qed.

Lemma post_chdir d w Q :
  (isdir d w = true → Q (Ok ()) (emit (Chdir d) (set_cwd d w))) →
  (isdir d w = false → Q (Raised (OSError "chdir")) w) →
  post (os_chdir d) w Q.
Proof. unfold post, os_chdir. destruct (isdir d w); auto. Qed.

Lemma post_inspect {A} (f : world → A) w Q : Q (Ok (f w)) w → post (inspect f) w Q.
Proof. done. Qed.

Lemma post_isdir p w Q : Q (Ok (isdir p w)) w → post (os_path_isdir p) w Q.
Proof. done. Qed.

Lemma post_rmtree p w Q :
  Q (Ok ()) (emit (Rmtree p) (set_dirs (filter (λ d, within p d = false) (dirs w)) w)) →
  post (shutil_rmtree p) w Q.
Proof. done. Qed.

Lemma post_mkdtemp E d w Q :
  (∀ name, let t := PosixPath.join d ("tmp" +:+ name) in
     isdir d w = true → isdir t w = false →
     Q (Ok t) (emit (Mkdtemp t) (set_dirs ({[t]} ∪ dirs w) w))) →
  Q (Raised (OSError "mkdtemp")) w →
  post (tempfile_mkdtemp E d) w Q.
Proof.
  intros Hok Hfail. unfold post, tempfile_mkdtemp.
  destruct (mkdtemp_name E d w) as [name|]; [|done].
  destruct (isdir d w) eqn:Hd; [|done].
  destruct (isdir (PosixPath.join d ("tmp" +:+ name)) w) eqn:Ht; [done|].
  by apply Hok.
Qed.

Lemma post_setup E sa exts w Q :
  (∀ made failure,
     Q (match failure with None => Ok () | Some e => Raised e end)
       (emit (Setup sa exts) (set_dirs (list_to_set made ∪ dirs w) w))) →
  post (distutils_setup E sa exts) w Q.
Proof.
  intros H. unfold post, distutils_setup.
  destruct (setup E sa exts w) as [made [e|]]; [apply (H made (Some e))|apply (H made None)].
Qed.

Lemma during_app w w' l : trace w' = trace w ++ l → during w w' = l.
Proof. unfold during. intros ->. by rewrite drop_app_length. Qed.

Lemma within_refl p : within p p = true.
Proof. unfold within. by rewrite String.eqb_refl. Qed.

Lemma truthy_join d name : truthy (Some (PosixPath.join d ("tmp" +:+ name))) = true.
Proof.
  unfold PosixPath.join. cbn. destruct (negb (nonempty d) || ends_with_slash d).
  - by destruct d.
  - by destruct d.
Qed.

(** One step of a computation: the rule of its head construct. *)
Ltac step :=
  lazymatch goal with
  | |- post (bind _ _) _ _ => apply post_bind
  | |- post (ret _) _ _ => apply post_ret
  | |- post (raise _) _ _ => apply post_raise
  | |- post (when _ _) _ _ => apply post_when; intros ?
  | |- post (try_finally _ _) _ _ => apply post_try_finally
  | |- post (try_except_else _ _ _) _ _ => apply post_try_except_else
  | |- post get_local _ _ => apply post_get_local
  | |- post (set_local _) _ _ => apply post_set_local
  | |- post (on_world _) _ _ => apply post_on_world
  | |- post (with_locals _ _) _ _ => apply post_with_locals
  | |- post (log _) _ _ => apply post_log
  | |- post os_getcwd _ _ => apply post_getcwd; intros ?
  | |- post (os_chdir _) _ _ => apply post_chdir; intros ?
  | |- post (os_path_isdir _) _ _ => apply post_isdir
  | |- post (inspect _) _ _ => apply post_inspect
  | |- post (shutil_rmtree _) _ _ => apply post_rmtree
  | |- post (tempfile_mkdtemp _ _) _ _ => apply post_mkdtemp; [intros ? ? ? ?|]
  | |- post (distutils_setup _ _ _) _ _ => apply post_setup; intros ? [?|]
  end.

Ltac world_simpl :=
  unfold isdir in *;
  cbn [cwd dirs trace pools_made flags emit set_cwd set_dirs set_flags
       count_pool fst snd temp_dir script_args default] in *;
  change (truthy None) with false in *;
  cbv iota.

(** Close a leaf about directories: the facts on [isdir] in the context
    decide it. *)
Ltac dirs_solver :=
  world_simpl;
  repeat match goal with
    | H : bool_decide _ = true |- _ => rewrite bool_decide_eq_true in H
    | H : bool_decide _ = false |- _ => rewrite bool_decide_eq_false in H
    end;
  rewrite ?bool_decide_eq_true, ?bool_decide_eq_false;
  set_solver.

(** The saved working directory cannot have gone. *)
Ltac absurd_dirs :=
  match goal with
  | H : bool_decide (cwd _ ∈ _) = false |- _ => exfalso; dirs_solver
  end.

Ltac during_norm :=
  unfold during;
  cbn [cwd dirs trace pools_made flags emit set_cwd set_dirs set_flags count_pool];
  rewrite <-?app_assoc, drop_app_length; cbn [app].

(** Which event of an explicit list of calls is meant. *)
Ltac pick_event :=
  let H := fresh in
  intros H; rewrite ?elem_of_cons, ?elem_of_nil in H;
  repeat (destruct H as [H|H]); try discriminate H; try done;
  try (injection H as ->).

Ltac unfold_temp :=
  match goal with x := PosixPath.join _ _ |- _ => subst x end.

Ltac steps := repeat (step; world_simpl).

Section RunDistutils.
Variable E : Env.

Lemma run_distutils_post base_dir ext_modules w Q :
  post (log (RunDistutils (base_dir, ext_modules)) >>
        let* cwd0 := os_getcwd in
        with_locals (RdLocals ["build_ext"; "-i"] None)
          (try_finally (run_distutils_try E base_dir ext_modules)
                       (run_distutils_finally base_dir cwd0)))%st w Q →
  post (run_distutils E (base_dir, ext_modules)) w Q.
Proof. done. Qed.

(** C2.  For a job whose base directory is set, [run_distutils] returns
    or raises, and the working directory of the process is then the one
    it had before the job, also when [setup] (or [chdir], or [mkdtemp])
    failed. *)
Theorem run_distutils_restores_cwd base_dir ext_modules w :
  truthy base_dir = true →
  (run_distutils E (base_dir, ext_modules) w).1 ≠ Undetermined ∧
  cwd (run_distutils E (base_dir, ext_modules) w).2 = cwd w.
Proof.
  intros Hb.
  change (post (run_distutils E (base_dir, ext_modules)) w
            (λ r w', r ≠ Undetermined ∧ cwd w' = cwd w)).
  apply run_distutils_post. steps; [|done].
  unfold run_distutils_try, run_distutils_finally. rewrite Hb.
  steps; try done; try absurd_dirs.
  all: unfold_temp; rewrite truthy_join; steps.
  all: match goal with |- post (if ?b then _ else _) _ _ => destruct b end; by steps.
Qed.

Lemma not_in_rmtree t (ds : gset string) :
  bool_decide (t ∈ filter (λ d, within t d = false) ds) = false.
Proof.
  apply bool_decide_eq_false. rewrite elem_of_filter, within_refl.
  by intros [? _].
Qed.

(** C1.  For a job with a base directory, a temporary directory [t]
    that [run_distutils] created ([t] is [base_dir/tmp...]) does not
    exist when the call is over; the call returns or raises, on every
    path, a failing [setup] included. *)
Theorem run_distutils_removes_temp_dir base_dir ext_modules w t :
  truthy base_dir = true →
  Mkdtemp t ∈ during w (snd (run_distutils E (base_dir, ext_modules) w)) →
  (∃ name, t = PosixPath.join (default "" base_dir) ("tmp" +:+ name)) ∧
  fst (run_distutils E (base_dir, ext_modules) w) ≠ Undetermined ∧
  isdir t (snd (run_distutils E (base_dir, ext_modules) w)) = false.
Proof.
  intros Hb.
  change (post (run_distutils E (base_dir, ext_modules)) w (λ r w',
    Mkdtemp t ∈ during w w' →
    (∃ name, t = PosixPath.join (default "" base_dir) ("tmp" +:+ name)) ∧
    r ≠ Undetermined ∧ isdir t w' = false)).
  apply run_distutils_post. steps.
  2:{ during_norm. pick_event. }
  unfold run_distutils_try, run_distutils_finally. rewrite Hb.
  steps; try absurd_dirs; try (during_norm; pick_event; fail).
  all: unfold_temp; rewrite truthy_join; steps.
  all: match goal with |- post (if ?b then _ else _) _ _ => destruct b eqn:Hd end;
    steps; during_norm; pick_event; (split; [by eexists|split; [done|]]).
  all: world_simpl; try done; apply not_in_rmtree.
Qed.

(** The calls of one [run_distutils]: its entry, then calls of [os],
    [tempfile], [shutil] and [setup] only. *)
Lemma run_distutils_calls args w :
  post (run_distutils E args) w (λ r w',
    r ≠ Undetermined ∧
    ∃ l, trace w' = trace w ++ RunDistutils args :: l ∧ Forall (build_step args) l).
Proof.
  destruct args as [base_dir ext_modules].
  apply run_distutils_post. steps.
  2:{ split; [done|]. by exists []. }
  unfold run_distutils_try, run_distutils_finally, build_step.
  destruct (truthy base_dir) eqn:Hb.
  - steps; try absurd_dirs.
    all: try (unfold_temp; rewrite truthy_join; steps;
              match goal with |- post (if ?b then _ else _) _ _ => destruct b eqn:Hd end;
              steps).
    all: (split; [done|]); eexists; rewrite <-?app_assoc; (split; [reflexivity|]).
    all: repeat constructor; cbn [fst snd]; rewrite ?Hb; eauto.
    all: by eexists.
  - steps.
    all: (split; [done|]); eexists; rewrite <-?app_assoc; (split; [reflexivity|]).
    all: repeat constructor; cbn [fst snd]; rewrite ?Hb; eauto.
Qed.
End RunDistutils.

Section InPlace.
Variable E : Env.

(** C10.  Every call of [setup] that [run_distutils] makes passes the
    extensions of the job and script arguments that begin with
    [build_ext -i], and nothing more when the base directory is unset;
    a job without base directory, run where the working directory
    exists, calls [setup] with exactly [build_ext -i]. *)
Theorem run_distutils_always_in_place base_dir ext_modules w :
  (∀ args ms,
     Setup args ms ∈ during w (run_distutils E (base_dir, ext_modules) w).2 →
     ms = ext_modules ∧
     ∃ rest, args = "build_ext" :: "-i" :: rest ∧
             (truthy base_dir = false → rest = [])) ∧
  (truthy base_dir = false → isdir (cwd w) w = true →
   during w (run_distutils E (base_dir, ext_modules) w).2
   = [RunDistutils (base_dir, ext_modules);
      Setup ["build_ext"; "-i"] ext_modules]).
Proof.
  split.
  - intros args ms.
    destruct (run_distutils_calls E (base_dir, ext_modules) w) as (_ & l & Hl & Hsteps).
    rewrite (during_app _ _ _ Hl). intros [?|Hin]%elem_of_cons; [done|].
    rewrite Forall_forall in Hsteps. apply (Hsteps _ Hin).
  - intros Hb Hcwd.
    change (post (run_distutils E (base_dir, ext_modules)) w (λ _ w',
      during w w' = [RunDistutils (base_dir, ext_modules);
                     Setup ["build_ext"; "-i"] ext_modules])).
    apply run_distutils_post. steps; [|world_simpl; congruence].
    unfold run_distutils_try, run_distutils_finally. rewrite Hb.
    steps; by during_norm.
Qed.
End InPlace.

(** ** The pool of one [cython_compile] *)

Lemma build_step_plain opts args e :
  build_step args e → plain_call opts e.
Proof. destruct e; simpl; try done; by repeat split. Qed.

Lemma filter_no_creation l :
  Forall (λ e, is_pool_creation e = false) l →
  filter (λ e, is_pool_creation e = true) l = [].
Proof.
  induction 1 as [|e l He _ IH]; [done|].
  rewrite filter_cons_False by congruence. done.
Qed.

Lemma lazily_plain l :
  Forall (λ e, is_pool_creation e = false) l → lazily l.
Proof. induction 1 as [|e l He _ IH]; simpl; [done|]. split; [congruence|done]. Qed.

Lemma lazily_app l l' : lazily l → lazily l' → lazily (l ++ l').
Proof.
  intros Hl Hl'. induction l as [|e r IH]; [done|].
  destruct Hl as [He Hr]. split; [|by apply IH].
  intros Hc. specialize (He Hc). by destruct r as [|[] r'].
Qed.

Lemma pool_inv_nil opts : pool_inv opts None [].
Proof. by split. Qed.

Lemma pool_inv_plain opts pv l l' :
  pool_inv opts pv l → Forall (plain_call opts) l' → pool_inv opts pv (l ++ l').
Proof.
  intros (Hl & Hlazy & Hpv) Hplain. split_and!.
  - apply Forall_app. split; [done|].
    eapply Forall_impl; [done|]. intros e (? & Hc & _ & ?). split_and!; [done..|congruence].
  - apply lazily_app; [done|]. apply lazily_plain.
    eapply Forall_impl; [done|]. by intros e (_ & ? & _).
  - destruct pv as [p|].
    + destruct Hpv as (Hcr & Hone & Hto). split_and!.
      * rewrite existsb_app, Hcr. done.
      * rewrite filter_app, length_app, Hone.
        rewrite (filter_no_creation l'); [done|].
        eapply Forall_impl; [done|]. by intros e (_ & ? & _).
      * apply Forall_app. split; [done|].
        eapply Forall_impl; [done|]. intros e (_ & _ & Hs & _). by destruct e.
    + apply Forall_app. split; [done|].
      eapply Forall_impl; [done|]. by intros e (_ & ? & ? & _).
Qed.

Lemma pool_inv_create_submit opts p e jobs l :
  pool_inv opts None l → creates p e = true →
  (1 < length jobs)%nat → (1 < parallel opts)%Z → Forall (job_ok opts) jobs →
  pool_inv opts (Some p) (l ++ [e; MapAsync p jobs]).
Proof.
  intros (Hl & Hlazy & Hnone) Hcr Hjobs Hpar Hok.
  assert (is_pool_creation e = true ∧ is_shutdown e = false ∧ jobs_of e = []
          ∧ is_submission e = false) as (Hc & Hs & Hj & Hsub).
  { by destruct p, e. }
  split_and!.
  - apply Forall_app. split; [done|]. repeat constructor; try done. by rewrite Hj.
  - apply lazily_app; [done|]. simpl. split_and!; done.
  - rewrite existsb_app. simpl. by rewrite Hcr, orb_true_r.
  - rewrite filter_app, length_app, (filter_no_creation l).
    + rewrite filter_cons_True by done. by rewrite filter_cons_False.
    + eapply Forall_impl; [done|]. by intros x [? _].
  - apply Forall_app. split.
    + eapply Forall_impl; [done|]. intros x [_ Hx]. by destruct x.
    + repeat constructor. by destruct e.
Qed.

Lemma pool_inv_submit opts p jobs l :
  pool_inv opts (Some p) l → Forall (job_ok opts) jobs →
  pool_inv opts (Some p) (l ++ [MapAsync p jobs]).
Proof.
  intros (Hl & Hlazy & Hcr & Hone & Hto) Hjobs. split_and!.
  - apply Forall_app. split; [done|]. by repeat constructor.
  - apply lazily_app; [done|]. by split.
  - by rewrite existsb_app, Hcr.
  - rewrite filter_app, length_app, Hone. by rewrite filter_cons_False.
  - apply Forall_app. split; [done|]. by repeat constructor.
Qed.

(** The trace of the final world, from the trace [Hl] before the last
    calls. *)
Ltac finish_trace Hl :=
  apply during_app; world_simpl; cbn [shutdown_calls];
  by rewrite Hl, <-?app_assoc, ?app_nil_r.

Section Pool.
Variable E : Env.

Lemma run_distutils_plain opts args w :
  post (run_distutils E args) w (λ r w',
    r ≠ Undetermined ∧
    (job_ok opts args → ∃ l, trace w' = trace w ++ l ∧ Forall (plain_call opts) l)).
Proof.
  eapply post_mono; [apply run_distutils_calls|].
  intros r w' (Hr & l & Hl & Hsteps). split; [done|]. intros Hok.
  exists (RunDistutils args :: l). split; [done|]. constructor.
  - unfold plain_call. simpl. split_and!; [done..|]. by constructor.
  - eapply Forall_impl; [done|]. intros e. apply build_step_plain.
Qed.

Lemma for_each_run_distutils_plain opts jobs : ∀ w,
  post (for_each (run_distutils E) jobs) w (λ r w',
    r ≠ Undetermined ∧
    (Forall (job_ok opts) jobs →
     ∃ l, trace w' = trace w ++ l ∧ Forall (plain_call opts) l)).
Proof.
  induction jobs as [|j jobs IH]; intros w; simpl.
  - step. split; [done|]. intros _. exists []. by rewrite app_nil_r.
  - step. eapply post_mono; [apply (run_distutils_plain opts)|].
    intros [[]|e|] w1 [Hr H1]; [|split; [done|]|done].
    + eapply post_mono; [apply IH|]. intros r w2 [Hr2 H2]. split; [done|].
      intros [Hj Hjobs]%Forall_cons.
      destruct (H1 Hj) as (l1 & E1 & Hl1). destruct (H2 Hjobs) as (l2 & E2 & Hl2).
      exists (l1 ++ l2). rewrite E2, E1, app_assoc. split; [done|].
      by apply Forall_app.
    + intros [Hj _]%Forall_cons. by apply H1.
Qed.

Lemma post_new_Pool n w Q :
  Q (Ok (RealPool (pools_made w))) (emit (PoolNew n (pools_made w)) (count_pool w)) →
  (∀ e, Q (Raised e) w) →
  post (new_Pool E n) w Q.
Proof.
  intros Hok Hfail. unfold post, new_Pool.
  destruct (have_multiprocessing E); [|apply Hfail].
  destruct (multiprocessing_Pool E n w); [apply Hfail|apply Hok].
Qed.

Lemma post_choose_base_dir fuel opts path w Q :
  (∀ b, (b = None ↔ build_inplace opts = false) → Q (Ok b) w) →
  Q Undetermined w →
  post (choose_base_dir E fuel opts path) w Q.
Proof.
  intros Hok Hspin. unfold post, choose_base_dir.
  destruct (build_inplace opts); [|by apply Hok].
  destruct (climb E fuel path w); [|done]. apply Hok. done.
Qed.

Lemma post_call_cythonize paths opts w Q :
  (∀ r, Q r (emit (Cythonize paths) w)) →
  post (call_cythonize E paths opts) w Q.
Proof. intros H. apply H. Qed.

(** [if pool is None: ...]: a bound pool is kept; otherwise a pool is
    created and bound, the [_FakePool] on [OSError], or the exception of
    the creation is raised with [pool] still unbound. *)
Lemma post_ensure_pool opts pv w Q :
  (∀ p, pv = Some p → Q (Ok ()) (pv, w)) →
  (pv = None → ∀ p e w1, creates p e = true → trace w1 = trace w →
     Q (Ok ()) (Some p, emit e w1)) →
  (pv = None → ∀ x, Q (Raised x) (None, w)) →
  post (ensure_pool E opts) (pv, w) Q.
Proof.
  intros Hbound Hnew Hfail. unfold ensure_pool. steps. destruct pv as [p|]; steps.
  - by eapply Hbound.
  - apply post_new_Pool.
    + steps. apply Hnew; [done| |done]. simpl. apply Nat.eqb_refl.
    + intros x. destruct (is_OSError x); steps; [by apply Hnew|by apply Hfail].
Qed.

Lemma dispatch_inv w0 opts base_dir ext_modules s :
  (base_dir = None ↔ build_inplace opts = false) →
  compile_inv w0 opts s →
  post (dispatch E opts base_dir ext_modules) s (λ _ s', compile_inv w0 opts s').
Proof.
  intros Hb Hs. unfold dispatch. destruct s as [pv w].
  destruct (bool_decide (ext_modules ≠ []) && build opts); [|by steps].
  destruct (bool_decide (1 < length ext_modules)%nat && bool_decide (1 < parallel opts)%Z)
    eqn:Hmany.
  - apply andb_prop in Hmany as [Hlen%bool_decide_eq_true Hpar%bool_decide_eq_true].
    set (jobs := map (λ ext, (base_dir, [ext])) ext_modules).
    assert (Forall (job_ok opts) jobs) as Hjobs.
    { apply Forall_forall. intros j (ext & -> & _)%list_elem_of_fmap. done. }
    assert (1 < length jobs)%nat as Hjlen by (unfold jobs; by rewrite length_map).
    destruct Hs as (l & Hl & Hinv). cbn [fst snd] in *.
    assert (∀ p w1 l1, trace w1 = trace w0 ++ l1 → pool_inv opts (Some p) l1 →
              post (pool_map_async E p jobs) w1
                (λ _ w', compile_inv w0 opts (Some p, w'))) as Hsubmit.
    { intros p w1 l1 Hl1 Hinv1. unfold pool_map_async. steps.
      assert (compile_inv w0 opts (Some p, emit (MapAsync p jobs) w1)) as Hsub.
      { exists (l1 ++ [MapAsync p jobs]). cbn [fst snd trace emit].
        rewrite Hl1, <-app_assoc. split; [done|]. by apply pool_inv_submit. }
      destruct p as [id|]; steps; [done|].
      eapply post_mono; [apply (for_each_run_distutils_plain opts)|].
      intros r w' [_ Hw']. destruct (Hw' Hjobs) as (l' & Hl' & Hplain).
      destruct Hsub as (l2 & Hl2 & Hinv2). cbn [fst snd] in *.
      exists (l2 ++ l'). cbn [fst snd]. rewrite Hl', Hl2, <-app_assoc.
      split; [done|]. by apply pool_inv_plain. }
    step. apply post_ensure_pool.
    + intros p ->. steps. by eapply Hsubmit.
    + intros -> p e w1 Hcr Hw1. steps. unfold pool_map_async. steps.
      assert (compile_inv w0 opts (Some p, emit (MapAsync p jobs) (emit e w1))) as Hsub.
      { exists (l ++ [e; MapAsync p jobs]). cbn [fst snd trace emit].
        rewrite Hw1, Hl, <-!app_assoc. split; [done|]. by apply pool_inv_create_submit. }
      destruct p as [id|]; steps; [done|].
      eapply post_mono; [apply (for_each_run_distutils_plain opts)|].
      intros r w' [_ Hw']. destruct (Hw' Hjobs) as (l' & Hl' & Hplain).
      destruct Hsub as (l2 & Hl2 & Hinv2). cbn [fst snd] in *.
      exists (l2 ++ l'). cbn [fst snd]. rewrite Hl', Hl2, <-app_assoc.
      split; [done|]. by apply pool_inv_plain.
    + intros -> x. by exists l.
  - steps.
    eapply post_mono; [apply (run_distutils_plain opts)|].
    intros r w' [_ Hw']. destruct (Hw' Hb) as (l' & Hl' & Hplain).
    destruct Hs as (l & Hl & Hinv). cbn [fst snd] in *.
    exists (l ++ l'). cbn [fst snd]. rewrite Hl', Hl, <-app_assoc.
    split; [done|]. by apply pool_inv_plain.
Qed.

Lemma compile_path_inv w0 fuel opts path s :
  compile_inv w0 opts s →
  post (compile_path E fuel opts path) s (λ _ s', compile_inv w0 opts s').
Proof.
  intros Hs. unfold compile_path. steps.
  apply post_choose_base_dir; [|done]. intros b Hb. steps.
  apply post_call_cythonize. intros r.
  assert (compile_inv w0 opts (s.1, emit (Cythonize (translation_paths path s.2)) s.2)) as Hs'.
  { destruct Hs as (l & Hl & Hinv). exists (l ++ [Cythonize (translation_paths path s.2)]).
    cbn [fst snd trace emit]. rewrite Hl, <-app_assoc. split; [done|].
    apply pool_inv_plain; [done|]. repeat constructor. }
  destruct r as [ext_modules|e|]; [|done|done].
  by apply dispatch_inv.
Qed.

Lemma for_paths_inv {S} (I : S → Prop) (body : string → ST S unit) paths ending :
  (∀ path s, I s → post (body path) s (λ _ s', I s')) →
  ∀ s, I s → post (for_paths body paths ending) s (λ _ s', I s').
Proof.
  intros Hbody. induction paths as [|path paths IH]; intros s Hs; simpl.
  - destruct ending; by steps.
  - step. eapply post_mono; [by apply Hbody|].
    intros [[]|e|] s' Hs'; [by apply IH|done|done].
Qed.

(** The calls of one [cython_compile]: calls that satisfy the invariant
    for the final binding of [pool], then the shutdown of that pool. *)
Lemma cython_compile_calls fuel pattern opts w :
  ∃ pv l,
    pool_inv opts pv l ∧
    during w (cython_compile E fuel pattern opts w).2
    = l ++ shutdown_calls (cython_compile E fuel pattern opts w).1 pv.
Proof.
  change (post (cython_compile E fuel pattern opts) w (λ r w',
    ∃ pv l, pool_inv opts pv l ∧ during w w' = l ++ shutdown_calls r pv)).
  unfold cython_compile, pool_terminate, pool_close, pool_join. steps.
  eapply post_mono.
  { apply (for_paths_inv (compile_inv w opts)).
    - intros path s. apply compile_path_inv.
    - exists []. cbn [fst snd]. rewrite app_nil_r. split; [done|apply pool_inv_nil]. }
  intros r [pv w'] (l & Hl & Hinv). cbn [fst snd] in *.
  destruct r as [[]|e|]; steps.
  - destruct pv as [p|]; steps; eexists _, l; (split; [done|]); finish_trace Hl.
  - destruct pv as [p|]; steps; eexists _, l; (split; [done|]); finish_trace Hl.
  - exists pv, l. split; [done|]. destruct pv; finish_trace Hl.
Qed.

Lemma shutdown_calls_shutdown {A} (r : result A) pv :
  Forall (λ e, is_shutdown e = true ∧ is_pool_creation e = false ∧ jobs_of e = []
               ∧ is_submission e = false)
         (shutdown_calls r pv).
Proof. destruct pv, r; by repeat constructor. Qed.

Lemma existsb_false {A} (f : A → bool) l :
  Forall (λ x, f x = false) l → existsb f l = false.
Proof. induction 1 as [|x l Hx _ IH]; simpl; [done|]. by rewrite Hx, IH. Qed.

(** C3.  When a pool was created during [cython_compile]: if an
    exception leaves the loop over the paths, [terminate] is called on
    that pool and is the last call before the exception propagates; if
    the loop completes, [close] and then [join] are called on it and
    are the last calls before the return.  No pool is shut down
    earlier. *)
Theorem cython_compile_shuts_pool_down fuel pattern opts w :
  existsb is_pool_creation (during w (cython_compile E fuel pattern opts w).2) = true →
  ∃ l p,
    existsb (creates p) l = true ∧
    Forall (λ e, is_shutdown e = false) l ∧
    during w (cython_compile E fuel pattern opts w).2
    = l ++ match (cython_compile E fuel pattern opts w).1 with
           | Raised _ => [Terminate p]
           | Ok _ => [Close p; Join p]
           | Undetermined => []
           end.
Proof.
  destruct (cython_compile_calls fuel pattern opts w) as (pv & l & Hinv & ->).
  rewrite existsb_app.
  rewrite (existsb_false _ (shutdown_calls _ _)), orb_false_r.
  2:{ eapply Forall_impl; [apply shutdown_calls_shutdown|]. by intros e (_ & ? & _). }
  intros Hcreated. destruct Hinv as (Hl & _ & Hpv). destruct pv as [p|].
  - exists l, p. split_and!; [apply Hpv| |done].
    eapply Forall_impl; [done|]. by intros e [? _].
  - rewrite existsb_false in Hcreated; [done|].
    eapply Forall_impl; [done|]. by intros e [? _].
Qed.

(** C7, amended.  One call of [cython_compile] creates at most one
    pool; it creates it only with a parallelism degree above one and
    submits more than one job to it at once; every submission of the
    call goes to that pool. *)
Theorem one_pool_per_cython_compile fuel pattern opts w :
  let calls := during w (cython_compile E fuel pattern opts w).2 in
  (length (filter (λ e, is_pool_creation e = true) calls) ≤ 1)%nat ∧
  lazily calls ∧
  (∀ e, e ∈ calls → is_pool_creation e = true → (1 < parallel opts)%Z) ∧
  (∀ p jobs, MapAsync p jobs ∈ calls →
     existsb (creates p) calls = true ∧
     ∀ q jobs', MapAsync q jobs' ∈ calls → q = p).
Proof.
  intros calls. subst calls.
  destruct (cython_compile_calls fuel pattern opts w) as (pv & l & Hinv & ->).
  pose proof (shutdown_calls_shutdown (cython_compile E fuel pattern opts w).1 pv) as Hsd.
  destruct Hinv as (Hl & Hlazy & Hpv). split_and!.
  - rewrite filter_app, length_app, (filter_no_creation (shutdown_calls _ _)).
    2:{ eapply Forall_impl; [done|]. by intros e (_ & ? & _). }
    destruct pv as [p|].
    + destruct Hpv as (_ & -> & _). simpl. lia.
    + rewrite filter_no_creation; [simpl; lia|].
      eapply Forall_impl; [done|]. by intros e [? _].
  - apply lazily_app; [done|]. apply lazily_plain.
    eapply Forall_impl; [done|]. by intros e (_ & ? & _).
  - intros e [Hin|Hin]%elem_of_app Hc.
    + rewrite Forall_forall in Hl. by apply (Hl e Hin).
    + rewrite Forall_forall in Hsd. destruct (Hsd e Hin) as (_ & ? & _). congruence.
  - assert (∀ q js, MapAsync q js ∈ l ++ shutdown_calls (cython_compile E fuel pattern opts w).1 pv →
              MapAsync q js ∈ l) as Hsub.
    { intros q js [Hin|Hin]%elem_of_app; [done|].
      rewrite Forall_forall in Hsd. by destruct (Hsd _ Hin) as (_ & _ & _ & ?). }
    intros p jobs Hin%Hsub. destruct pv as [p'|].
    + destruct Hpv as (Hcr & _ & Hto). rewrite Forall_forall in Hto.
      pose proof (Hto _ Hin) as Hp. simpl in Hp. subst p'. split.
      * by rewrite existsb_app, Hcr.
      * intros q jobs' Hq%Hsub. apply (Hto _ Hq).
    + rewrite Forall_forall in Hpv. by destruct (Hpv _ Hin) as [_ ?].
Qed.

(** C8.  Every job [cython_compile] runs or submits has base directory
    [None] exactly when the in-place option is not set; and
    [run_distutils] on a job whose base directory is [None] changes no
    working directory and makes no temporary directory. *)
Theorem base_dir_None_iff_not_inplace fuel pattern opts w e j :
  e ∈ during w (cython_compile E fuel pattern opts w).2 →
  j ∈ jobs_of e →
  (j.1 = None ↔ build_inplace opts = false) ∧
  (j.1 = None →
   ∀ w1, Forall (λ e, is_switch e = false) (during w1 (run_distutils E j w1).2)).
Proof.
  destruct (cython_compile_calls fuel pattern opts w) as (pv & l & Hinv & ->).
  intros [Hin|Hin]%elem_of_app Hj.
  - split.
    + destruct Hinv as (Hl & _). rewrite Forall_forall in Hl.
      destruct (Hl e Hin) as (_ & Hjobs & _). rewrite Forall_forall in Hjobs.
      by apply Hjobs.
    + intros Hnone w1.
      destruct (run_distutils_calls E j w1) as (_ & l1 & Hl1 & Hsteps).
      rewrite (during_app _ _ _ Hl1). constructor; [done|].
      eapply Forall_impl; [done|]. intros x Hx.
      destruct x; try done; simpl in Hx; by rewrite Hnone in Hx.
  - pose proof (shutdown_calls_shutdown (cython_compile E fuel pattern opts w).1 pv) as Hsd.
    rewrite Forall_forall in Hsd. destruct (Hsd e Hin) as (_ & _ & Hnil & _).
    rewrite Hnil in Hj. by apply elem_of_nil in Hj.
Qed.

(** C5.  For a path whose translation yields exactly one unit [u], with
    building requested, the loop body is the translation followed by
    the call [run_distutils((base_dir, [u]))] in the calling thread:
    [pool] is left as it was, no pool is created or submitted to,
    whatever the parallelism degree. *)
Theorem single_unit_is_built_directly fuel opts path pv w b u :
  choose_base_dir E fuel opts path w = (Ok b, w) →
  cythonize E (translation_paths path w) opts w = Ok [u] →
  build opts = true →
  let w1 := emit (Cythonize (translation_paths path w)) w in
  compile_path E fuel opts path (pv, w)
  = ((run_distutils E (b, [u]) w1).1, (pv, (run_distutils E (b, [u]) w1).2)) ∧
  ∃ l, during w (run_distutils E (b, [u]) w1).2
       = Cythonize (translation_paths path w) :: RunDistutils (b, [u]) :: l ∧
       Forall (build_step (b, [u])) l.
Proof.
  intros Hbase Htrans Hbuild w1. split.
  - unfold compile_path, bind, on_world, inspect, call_cythonize. cbn [fst snd].
    rewrite Hbase. cbn [fst snd]. rewrite Htrans. fold w1.
    unfold dispatch. rewrite Hbuild. cbn [length]. 
    rewrite bool_decide_true by done. rewrite (bool_decide_false (1 < 1)%nat) by lia.
    cbn [andb]. unfold on_world. cbn [fst snd].
    by destruct (run_distutils E (b, [u]) w1).
  - destruct (run_distutils_calls E (b, [u]) w1) as (_ & l & Hl & Hsteps).
    exists l. split; [|done]. apply during_app. rewrite Hl. subst w1.
    cbn [trace emit]. by rewrite <-app_assoc.
Qed.

(** C4, amended.  When [multiprocessing.Pool] raises [OSError] (or the
    [_FakePool] is bound already), dispatching more than one unit with
    a parallelism degree above one binds the [_FakePool] and runs
    [run_distutils] in the calling thread, once per unit in the order of
    the translator; the outcome is that of these calls, so the
    [OSError] of the creation is not raised. *)
Theorem fake_pool_dispatch opts base_dir ext_modules pv w :
  pool_unavailable E opts pv w →
  build opts = true →
  (1 < length ext_modules)%nat →
  (1 < parallel opts)%Z →
  let jobs := map (λ ext, (base_dir, [ext])) ext_modules in
  let w1 := emit (MapAsync FakePool jobs)
              (match pv with None => emit FakePoolNew w | Some _ => w end) in
  dispatch E opts base_dir ext_modules (pv, w)
  = ((for_each (run_distutils E) jobs w1).1,
     (Some FakePool, (for_each (run_distutils E) jobs w1).2)).
Proof.
  intros Hpool Hbuild Hlen Hpar jobs w1. unfold dispatch. rewrite Hbuild.
  rewrite (bool_decide_true (ext_modules ≠ []))
    by (destruct ext_modules; [simpl in Hlen; lia|done]).
  rewrite !bool_decide_true by done. cbn [andb].
  unfold bind, ensure_pool, get_local, bind. cbn [fst snd].
  destruct pv as [p|]; simpl in Hpool.
  - subst p. unfold ret. cbn [fst snd]. unfold on_world, pool_map_async, bind, log.
    cbn [fst snd]. fold jobs. fold w1. by destruct (for_each (run_distutils E) jobs w1).
  - destruct Hpool as [Hmp [what Hwhat]].
    unfold try_except_else, on_world, new_Pool. cbn [fst snd].
    rewrite Hmp, Hwhat. cbn [is_OSError]. unfold bind, log, set_local. cbn [fst snd].
    unfold pool_map_async, bind, log. cbn [fst snd]. fold jobs. fold w1.
    by destruct (for_each (run_distutils E) jobs w1).
Qed.
End Pool.

(** ** The language-level flags *)

Lemma lang_of_flag_dash a : starts_with_dash a = false → lang_of_flag a = None.
Proof.
  unfold lang_of_flag. intros Ha.
  repeat match goal with
    | |- context [String.eqb a ?s] =>
        let H := fresh in
        destruct (String.eqb a s) eqn:H;
        [apply String.eqb_eq in H; subst a; by cbn in Ha|]
    end.
  done.
Qed.

(** The option strings that store a language level are the flags
    [lang_of_flag] reads. *)
Lemma option_action_lang a act :
  option_action a = Some act →
  lang_of_flag a = match act with StoreLanguageLevel l => Some l | _ => None end.
Proof.
  unfold option_action, arguments. cbn [find existsb fst snd orb fmap option_fmap option_map].
  repeat match goal with
    | |- context [String.eqb a ?s] =>
        let H := fresh in
        destruct (String.eqb a s) eqn:H;
        [apply String.eqb_eq in H; subst a; cbn; intros [= <-]; reflexivity|];
        cbn [orb]
    end.
  done.
Qed.

Lemma last_language_flag_cons a rest :
  last_language_flag (a :: rest)
  = match last_language_flag rest with
    | Some l => Some l
    | None => lang_of_flag a
    end.
Proof.
  unfold last_language_flag.
  change (omap lang_of_flag (a :: rest))
    with (match lang_of_flag a with
          | Some y => y :: omap lang_of_flag rest
          | None => omap lang_of_flag rest
          end).
  destruct (lang_of_flag a) as [l|].
  - by rewrite last_cons.
  - by destruct (last (omap lang_of_flag rest)).
Qed.

Section Flags.
Variable E : Env.

Lemma call_action_language_level act value ns ns' :
  call_action E act value ns = Parsed ns' →
  language_level ns'
  = match act with StoreLanguageLevel l => Some l | _ => language_level ns end.
Proof.
  destruct act; simpl; try (intros [= <-]; done).
  - destruct (parse_directive_list E value (directives ns)); [|done]. by intros [= <-].
  - destruct (parse_compile_time_env E value (compile_time_env ns)); [|done]. by intros [= <-].
  - by destruct dest; intros [= <-].
  - destruct (int_of_digits value); [|done]. by intros [= <-].
Qed.

Lemma parse_known_language_level args : ∀ st ns sources unknown ns' sources' unknown',
  parse_known E args st ns sources unknown = Parsed (ns', sources', unknown') →
  language_level ns'
  = match last_language_flag args with
    | Some l => Some l
    | None => language_level ns
    end.
Proof.
  induction args as [args IH] using (induction_ltof1 _ (@length string)).
  unfold ltof in IH. intros st ns sources unknown ns' sources' unknown'.
  destruct args as [|a rest]; [by intros [= <- _ _]|].
  cbn [parse_known]. rewrite last_language_flag_cons.
  destruct (starts_with_dash a) eqn:Hdash.
  - destruct (option_action a) as [act|] eqn:Hact; [|done].
    rewrite (option_action_lang _ _ Hact).
    destruct (takes_value act) eqn:Hval.
    + destruct rest as [|v rest']; [done|].
      destruct (starts_with_dash v) eqn:Hv; [done|].
      destruct (call_action E act v ns) as [ns1| | |] eqn:Hcall; try done.
      intros Hrest. apply IH in Hrest; [|simpl; lia].
      rewrite (call_action_language_level _ _ _ _ Hcall) in Hrest.
      rewrite last_language_flag_cons, (lang_of_flag_dash _ Hv).
      rewrite Hrest. by destruct (last_language_flag rest'), act.
    + destruct (call_action E act EmptyString ns) as [ns1| | |] eqn:Hcall; try done.
      intros Hrest. apply IH in Hrest; [|simpl; lia].
      rewrite (call_action_language_level _ _ _ _ Hcall) in Hrest.
      rewrite Hrest. by destruct (last_language_flag rest), act.
  - rewrite (lang_of_flag_dash _ Hdash).
    destruct st; intros Hrest; apply IH in Hrest; simpl; try lia;
      rewrite Hrest; by destruct (last_language_flag rest).
Qed.

Lemma lang_flag_action a l :
  lang_of_flag a = Some l →
  starts_with_dash a = true ∧ option_action a = Some (StoreLanguageLevel l).
Proof.
  unfold lang_of_flag.
  repeat match goal with
    | |- context [String.eqb a ?s] =>
        let H := fresh in
        destruct (String.eqb a s) eqn:H;
        [apply String.eqb_eq in H; subst a; by intros [= <-]|]
    end.
  done.
Qed.

Lemma parse_known_flags flags source :
  Forall (λ a, is_Some (lang_of_flag a)) flags →
  starts_with_dash source = false →
  ∀ ns, ∃ ns',
    parse_known E (flags ++ [source]) Pending ns [] [] = Parsed (ns', [source], []).
Proof.
  intros Hflags Hsource. induction Hflags as [|a flags [l Ha] _ IH]; intros ns.
  - exists ns. simpl. by rewrite Hsource.
  - destruct (lang_flag_action _ _ Ha) as [Hdash Hact].
    cbn [app parse_known]. rewrite Hdash, Hact. cbn. apply IH.
Qed.

Lemma flags_in_fragment flags source :
  Forall (λ a, is_Some (lang_of_flag a)) flags →
  starts_with_dash source = false →
  forallb in_fragment (flags ++ [source]) = true.
Proof.
  intros Hflags Hsource. rewrite forallb_app. apply andb_true_intro. split.
  - induction Hflags as [|a flags [l Ha] _ IH]; [done|].
    destruct (lang_flag_action _ _ Ha) as [_ Hact].
    cbn [forallb]. unfold in_fragment at 1. rewrite Hact, IH.
    rewrite bool_decide_true by done. by rewrite orb_true_r.
  - simpl. unfold in_fragment. by rewrite Hsource.
Qed.

(** C9, amended.  The flags [-2], [-3] and [--3str] store into one
    destination and are not exclusive: any number of them followed by a
    source is accepted; and whenever arguments are accepted, the language
    level is the one of the last of these flags (none when there is
    none), and it is what [parse_args] puts under ['language_level'] in
    the options. *)
Theorem language_level_last_wins :
  (∀ flags source,
     Forall (λ a, is_Some (lang_of_flag a)) flags →
     starts_with_dash source = false →
     ∃ opts, parse_args E (flags ++ [source]) = Parsed (opts, [source])) ∧
  (∀ args opts sources,
     parse_args E args = Parsed (opts, sources) →
     language_level opts = last_language_flag args ∧
     ∀ l, last_language_flag args = Some l →
          opt_options opts !! "language_level" = Some (OLang l)).
Proof.
  split.
  - intros flags source Hflags Hsource.
    unfold parse_args, parse_args_raw, parse_known_args.
    rewrite flags_in_fragment by done.
    destruct (parse_known_flags flags source Hflags Hsource (defaults E)) as [ns ->].
    cbn. by eexists.
  - intros args opts sources.
    unfold parse_args, parse_args_raw, parse_known_args.
    destruct (forallb in_fragment args); [|done].
    destruct (parse_known E args Pending (defaults E) [] [])
      as [[[ns srcs] unk]| | |] eqn:Hknown; try done.
    apply parse_known_language_level in Hknown. cbn [language_level defaults] in Hknown.
    cbn [parsed_bind]. destruct (collect_unknown unk srcs) as [srcs'| | |]; try done.
    cbn [parsed_bind]. destruct srcs' as [|s srcs']; [done|].
    intros [= <- _].
    assert (language_level ns = last_language_flag args) as Hlevel.
    { rewrite Hknown. by destruct (last_language_flag args). }
    destruct ns as [d c o ll an ex b bi par f q le k nd]. cbn in Hlevel. subst ll.
    cbn. destruct bi, (have_multiprocessing E), (last_language_flag args) as [l|]; cbn;
      (split; [done|]); intros l' [= <-]; apply lookup_insert_eq.
Qed.
End Flags.

(** ** The properties on the sample tree *)

Lemma run_distutils_restores_cwd_witness :
  (run_distutils (sample_env ["m"] true false) (Some "/w/pkg", ["m"]) sample_world).1
  ≠ Undetermined ∧
  cwd (run_distutils (sample_env ["m"] true false) (Some "/w/pkg", ["m"]) sample_world).2
  = "/w".
Proof.
  apply (run_distutils_restores_cwd (sample_env ["m"] true false)
           (Some "/w/pkg") ["m"] sample_world).
  reflexivity.
Defined.

Lemma run_distutils_removes_temp_dir_witness :
  (∃ name, "/w/pkg/tmpk3x9" = PosixPath.join "/w/pkg" ("tmp" +:+ name)) ∧
  (run_distutils (sample_env ["m"] true false) (Some "/w/pkg", ["m"]) sample_world).1
  ≠ Undetermined ∧
  isdir "/w/pkg/tmpk3x9"
    (run_distutils (sample_env ["m"] true false) (Some "/w/pkg", ["m"]) sample_world).2
  = false.
Proof.
  apply (run_distutils_removes_temp_dir (sample_env ["m"] true false)
           (Some "/w/pkg") ["m"] sample_world "/w/pkg/tmpk3x9").
  - reflexivity.
  - vm_compute. repeat constructor.
Defined.

Lemma cython_compile_shuts_pool_down_witness :
  ∃ l p,
    existsb (creates p) l = true ∧
    Forall (λ e, is_shutdown e = false) l ∧
    during sample_world
      (cython_compile (sample_env ["m1"; "m2"] false false) 3 "/w/a.pyx"
         (sample_options false 2) sample_world).2
    = l ++ [Terminate p].
Proof.
  apply (cython_compile_shuts_pool_down (sample_env ["m1"; "m2"] false false) 3
           "/w/a.pyx" (sample_options false 2) sample_world).
  vm_compute. reflexivity.
Defined.

Lemma fake_pool_dispatch_witness :
  dispatch (sample_env ["m1"; "m2"] false true) (sample_options true 2)
    (Some "/w") ["m1"; "m2"] (None, sample_world)
  = ((for_each (run_distutils (sample_env ["m1"; "m2"] false true))
        [(Some "/w", ["m1"]); (Some "/w", ["m2"])]
        (emit (MapAsync FakePool [(Some "/w", ["m1"]); (Some "/w", ["m2"])])
           (emit FakePoolNew sample_world))).1,
     (Some FakePool,
      (for_each (run_distutils (sample_env ["m1"; "m2"] false true))
         [(Some "/w", ["m1"]); (Some "/w", ["m2"])]
         (emit (MapAsync FakePool [(Some "/w", ["m1"]); (Some "/w", ["m2"])])
            (emit FakePoolNew sample_world))).2)).
Proof.
  apply (fake_pool_dispatch (sample_env ["m1"; "m2"] false true) (sample_options true 2)
           (Some "/w") ["m1"; "m2"] None sample_world).
  - split; [reflexivity|]. by eexists.
  - reflexivity.
  - simpl. lia.
  - simpl. lia.
Defined.

Lemma single_unit_is_built_directly_witness :
  compile_path (sample_env ["m"] true true) 3 (sample_options false 8) "/w/a.pyx"
    (None, sample_world)
  = ((run_distutils (sample_env ["m"] true true) (None, ["m"])
        (emit (Cythonize ["/w/a.pyx"]) sample_world)).1,
     (None,
      (run_distutils (sample_env ["m"] true true) (None, ["m"])
         (emit (Cythonize ["/w/a.pyx"]) sample_world)).2)) ∧
  ∃ l, during sample_world
         (run_distutils (sample_env ["m"] true true) (None, ["m"])
            (emit (Cythonize ["/w/a.pyx"]) sample_world)).2
       = Cythonize ["/w/a.pyx"] :: RunDistutils (None, ["m"]) :: l ∧
       Forall (build_step (None, ["m"])) l.
Proof.
  apply (single_unit_is_built_directly (sample_env ["m"] true true) 3
           (sample_options false 8) "/w/a.pyx" None sample_world None "m");
    reflexivity.
Defined.

Lemma base_dir_None_iff_not_inplace_witness :
  ((None : option string) = None ↔ build_inplace (sample_options false 2) = false) ∧
  ((None : option string) = None →
   ∀ w1, Forall (λ e, is_switch e = false)
           (during w1 (run_distutils (sample_env ["m1"; "m2"] true true)
                         (None, ["m1"]) w1).2)).
Proof.
  apply (base_dir_None_iff_not_inplace (sample_env ["m1"; "m2"] true true) 3 "/w/a.pyx"
           (sample_options false 2) sample_world
           (MapAsync (RealPool 0) [(None, ["m1"]); (None, ["m2"])]) (None, ["m1"])).
  - vm_compute. repeat constructor.
  - vm_compute. repeat constructor.
Defined.

Lemma language_level_last_wins_witness :
  ∃ opts,
    parse_args (sample_env [] true true) ["--3str"; "a.pyx"; "-2"] = Parsed (opts, ["a.pyx"]) ∧
    language_level opts = Some Lang2 ∧
    opt_options opts !! "language_level" = Some (OLang Lang2).
Proof.
  eexists. split; [vm_compute; reflexivity|].
  destruct (proj2 (language_level_last_wins (sample_env [] true true))
              ["--3str"; "a.pyx"; "-2"] _ ["a.pyx"] eq_refl) as [Hlevel Hdict].
  split; [exact Hlevel|]. exact (Hdict Lang2 eq_refl).
Defined.

(** C9, as stated, fails: a command line with both [-2] and [-3] is
    accepted, and the language level is 3. *)
Lemma language_flags_accepted_together :
  ∃ opts,
    parse_args (sample_env [] true true) ["-2"; "-3"; "a.pyx"] = Parsed (opts, ["a.pyx"]) ∧
    language_level opts = Some Lang3.
Proof. eexists. split; vm_compute; reflexivity. Qed.

(** C7, as stated, fails: one run of [main] over two patterns creates a
    pool for each. *)
Lemma main_creates_a_pool_per_pattern :
  during sample_world
    (main (sample_env ["m1"; "m2"] true true) 3 ["-b"; "/w/a.pyx"; "/w/b.pyx"]
       sample_world).2
  = [ Cythonize ["/w/a.pyx"]; PoolNew 3 0;
      MapAsync (RealPool 0) [(None, ["m1"]); (None, ["m2"])];
      Close (RealPool 0); Join (RealPool 0);
      Cythonize ["/w/b.pyx"]; PoolNew 3 1;
      MapAsync (RealPool 1) [(None, ["m1"]); (None, ["m2"])];
      Close (RealPool 1); Join (RealPool 1) ].
Proof. vm_compute. reflexivity. Qed.

(** C4, as stated, fails: with the pool unavailable the builds are one
    job per unit, with a parallelism degree of 1 they are one job for all
    units of the path. *)
Lemma fallback_jobs_differ_from_sequential :
  sync_jobs (during sample_world
               (cython_compile (sample_env ["m1"; "m2"] false true) 3 "/w/pkg/a.pyx"
                  (sample_options true 2) sample_world).2)
  = [(Some "/w", ["m1"]); (Some "/w", ["m2"])] ∧
  sync_jobs (during sample_world
               (cython_compile (sample_env ["m1"; "m2"] false true) 3 "/w/pkg/a.pyx"
                  (sample_options true 1) sample_world).2)
  = [(Some "/w", ["m1"; "m2"])].
Proof. split; vm_compute; reflexivity. Qed.

(** * Further properties *)

(** ** The argument parser *)

Lemma option_strings_start_with_dash a act :
  option_action a = Some act → starts_with_dash a = true.
Proof.
  unfold option_action, arguments. cbn [find existsb fst snd orb fmap option_fmap option_map].
  repeat match goal with
    | |- context [String.eqb a ?s] =>
        let H := fresh in
        destruct (String.eqb a s) eqn:H;
        [apply String.eqb_eq in H; subst a; reflexivity|];
        cbn [orb]
    end.
  done.
Qed.

Lemma collect_unknown_plain unknown : ∀ sources,
  Forall (λ a, starts_with_dash a = false) unknown →
  collect_unknown unknown sources = Parsed (sources ++ unknown).
Proof.
  induction unknown as [|a unknown IH]; intros sources Hplain; simpl.
  - by rewrite app_nil_r.
  - apply Forall_cons in Hplain as [-> Hplain]. rewrite IH by done.
    by rewrite <-app_assoc.
Qed.

Lemma last_value_cons name n v pairs :
  last_value name ((n, v) :: pairs)
  = match last_value name pairs with
    | Some v' => Some v'
    | None => if decide (n = name) then Some v else None
    end.
Proof.
  unfold last_value. rewrite filter_cons. cbn [fst].
  destruct (decide (n = name)) as [->|Hne].
  - rewrite last_cons. by destruct (last (filter _ pairs)).
  - by destruct (last (filter _ pairs)).
Qed.

Lemma foldl_options_lookup name opts : ∀ d : gmap string optval,
  foldl (λ (d : gmap string optval) opt,
           let '(n, v) := parse_option opt in <[n := OBool v]> d) d opts !! name
  = match last_value name (map parse_option opts) with
    | Some v => Some (OBool v)
    | None => d !! name
    end.
Proof.
  induction opts as [|opt opts IH]; intros d; [done|].
  cbn [foldl map]. rewrite IH. destruct (parse_option opt) as [n v].
  rewrite last_value_cons. destruct (last_value name (map parse_option opts)); [done|].
  destruct (decide (n = name)) as [->|Hne].
  - by rewrite lookup_insert_eq.
  - by rewrite lookup_insert_ne.
Qed.

(** X1.  After [ParseOptionsAction] has run on [-s values], the
    dictionary holds for each name the boolean of the last
    [name[=value]] item of [values] that names it, and, for a name that
    [values] does not mention, the entry the dictionary had before. *)
Theorem parse_options_action_lookup values o name :
  opt_options (parse_options_action values o) !! name
  = match last_value name (option_pairs values) with
    | Some v => Some (OBool v)
    | None => opt_options o !! name
    end.
Proof.
  unfold parse_options_action, option_pairs, with_opt_options. simpl.
  apply foldl_options_lookup.
Qed.

Lemma split_eq_first n v :
  no_equals n = true → split_eq (n +:+ "=" +:+ v) = Some (n, v).
Proof.
  induction n as [|c n IH]; [done|]. cbn [no_equals].
  intros [Hc Hn]%andb_prop. rewrite append_cons. cbn [split_eq].
  apply negb_true_iff in Hc. rewrite Hc. by rewrite IH.
Qed.

Lemma split_eq_none opt : no_equals opt = true → split_eq opt = None.
Proof.
  induction opt as [|c n IH]; [done|]. cbn [no_equals split_eq].
  intros [Hc Hn]%andb_prop. apply negb_true_iff in Hc. rewrite Hc. by rewrite IH.
Qed.

(** X2.  An item of [-s] is cut at its first ['=']: a bare name [n]
    stands for [n = True], and [n=v] gives [n] the value [False] exactly
    when [v], in lower case, is one of [false], [f], [0], [no]; further
    ['='] signs belong to the value. *)
Theorem parse_option_splits_at_first_equals n v :
  no_equals n = true →
  parse_option n = (n, true) ∧
  parse_option (n +:+ "=" +:+ v)
  = (n, negb (existsb (String.eqb (lower v)) ["false"; "f"; "0"; "no"])).
Proof.
  intros Hn. unfold parse_option. by rewrite split_eq_none, split_eq_first.
Qed.

Section ParserMore.
Variable E : Env.

Lemma parse_known_positionals args : ∀ st ns sources unknown ns' sources' unknown',
  st = Consumed ∨ unknown = [] →
  Forall (λ a, starts_with_dash a = false) unknown →
  parse_known E args st ns sources unknown = Parsed (ns', sources', unknown') →
  sources' ++ unknown' = sources ++ unknown ++ positionals args ∧
  Forall (λ a, starts_with_dash a = false) unknown'.
Proof.
  induction args as [args IH] using (induction_ltof1 _ (@length string)).
  unfold ltof in IH. intros st ns sources unknown ns' sources' unknown' Hst Hplain.
  destruct args as [|a rest]; [intros [= <- <- <-]; by rewrite !app_nil_r|].
  cbn [parse_known positionals].
  assert (after_option st = Consumed ∨ unknown = []) as Hafter.
  { destruct Hst as [->|]; [by left|by right]. }
  destruct (starts_with_dash a) eqn:Hdash.
  - destruct (option_action a) as [act|]; [|done].
    destruct (takes_value act).
    + destruct rest as [|v rest']; [done|].
      destruct (starts_with_dash v); [done|].
      destruct (call_action E act v ns) as [ns1| | |]; try done.
      intros Hrest. apply IH in Hrest; [done|simpl; lia|done..].
    + destruct (call_action E act EmptyString ns) as [ns1| | |]; try done.
      intros Hrest. apply IH in Hrest; [done|simpl; lia|done..].
  - assert (st = Consumed ∨ (st ≠ Consumed ∧ unknown = [])) as [->|[Hne ->]].
    { destruct st; [right|right|left]; try done; by destruct Hst. }
    + intros Hrest. apply IH in Hrest as [-> ?]; [|simpl; lia|by left|].
      * by rewrite <-!app_assoc.
      * apply Forall_app. split; [done|]. by constructor.
    + assert (parse_known E rest Filling ns (sources ++ [a]) [] = Parsed (ns', sources', unknown')
              → (sources' ++ unknown' = sources ++ [] ++ a :: positionals rest
                 ∧ Forall (λ a, starts_with_dash a = false) unknown')) as Hfill.
      { intros Hrest. apply IH in Hrest as [-> ?]; [|simpl; lia|by right|done].
        by rewrite <-!app_assoc. }
      by destruct st.
Qed.

Lemma parse_args_raw_positionals args opts sources :
  parse_args_raw E args = Parsed (opts, sources) → sources = positionals args.
Proof.
  unfold parse_args_raw, parse_known_args.
  destruct (forallb in_fragment args); [|done].
  destruct (parse_known E args Pending (defaults E) [] [])
    as [[[ns srcs] unk]| | |] eqn:Hknown; try done.
  apply parse_known_positionals in Hknown as [Hall Hplain]; [|by right|done].
  cbn [parsed_bind]. rewrite collect_unknown_plain by done. cbn [parsed_bind].
  rewrite Hall. by intros [= _ <-].
Qed.

(** X3.  The sources [parse_args] returns are the positional arguments
    of the command line, all of them and in the order given, also those
    that follow an option ([parse_args_raw] appends what
    [parse_known_args] left over); there is at least one. *)
Theorem parse_args_sources args opts sources :
  parse_args E args = Parsed (opts, sources) →
  sources = positionals args ∧ sources ≠ [].
Proof.
  unfold parse_args.
  destruct (parse_args_raw E args) as [[ns srcs]| | |] eqn:Hraw; try done.
  apply parse_args_raw_positionals in Hraw as ->. cbn [parsed_bind].
  destruct (positionals args) as [|s rest]; [done|]. by intros [= _ <-].
Qed.

(** X4.  A command line whose options parse but which names no source
    makes [main] exit with status 2 ([parser.error]) before anything is
    done: the world is untouched. *)
Theorem main_without_sources_exits fuel args opts sources w :
  parse_args_raw E args = Parsed (opts, sources) →
  positionals args = [] →
  main E fuel args w = (Raised (SystemExit 2), w).
Proof.
  intros Hraw Hnone. unfold main, parse_args. rewrite Hraw.
  apply parse_args_raw_positionals in Hraw. rewrite Hnone in Hraw. by subst sources.
Qed.

Lemma call_action_switch act value ns ns' dest :
  call_action E act value ns = Parsed ns' →
  switch_value dest ns' = true ↔ act = StoreTrue dest ∨ switch_value dest ns = true.
Proof.
  destruct act as [| | |l|c| |d|]; simpl.
  - destruct (parse_directive_list E value (directives ns)); [|done].
    intros [= <-]. destruct dest; cbn; intuition congruence.
  - destruct (parse_compile_time_env E value (compile_time_env ns)); [|done].
    intros [= <-]. destruct dest; cbn; intuition congruence.
  - intros [= <-]. destruct dest; cbn; intuition congruence.
  - intros [= <-]. destruct dest; cbn; intuition congruence.
  - intros [= <-]. destruct dest; cbn; intuition congruence.
  - intros [= <-]. destruct dest; cbn; intuition congruence.
  - intros [= <-]. destruct d, dest; cbn; intuition congruence.
  - destruct (int_of_digits value); [|done].
    intros [= <-]. destruct dest; cbn; intuition congruence.
Qed.

(** A switch is on after the arguments exactly when it was on before or
    one of its option strings is among them. *)
Lemma parse_known_switch dest args : ∀ st ns sources unknown ns' sources' unknown',
  parse_known E args st ns sources unknown = Parsed (ns', sources', unknown') →
  switch_value dest ns' = true ↔
  switch_value dest ns = true ∨ ∃ a, a ∈ args ∧ option_action a = Some (StoreTrue dest).
Proof.
  induction args as [args IH] using (induction_ltof1 _ (@length string)).
  unfold ltof in IH. intros st ns sources unknown ns' sources' unknown'.
  destruct args as [|a rest].
  { intros [= <- _ _]. split; [by left|]. intros [?|(a & []%elem_of_nil & _)]. done. }
  cbn [parse_known].
  destruct (starts_with_dash a) eqn:Hdash.
  - destruct (option_action a) as [act|] eqn:Hact; [|done].
    destruct (takes_value act) eqn:Hval.
    + destruct rest as [|v rest']; [done|].
      destruct (starts_with_dash v) eqn:Hv; [done|].
      destruct (call_action E act v ns) as [ns1| | |] eqn:Hcall; try done.
      intros Hrest. apply IH in Hrest; [|simpl; lia]. rewrite Hrest.
      rewrite (call_action_switch _ _ _ _ dest Hcall).
      split.
      * intros [[->|?]|(x & Hx & Hxa)]; [done|by left|].
        right. exists x. split; [|done]. rewrite !elem_of_cons. auto.
      * intros [?|(x & Hx & Hxa)]; [by left; right|].
        apply elem_of_cons in Hx as [->|Hx].
        { rewrite Hact in Hxa. injection Hxa as ->. done. }
        apply elem_of_cons in Hx as [->|Hx].
        { apply option_strings_start_with_dash in Hxa. congruence. }
        right. by exists x.
    + destruct (call_action E act EmptyString ns) as [ns1| | |] eqn:Hcall; try done.
      intros Hrest. apply IH in Hrest; [|simpl; lia]. rewrite Hrest.
      rewrite (call_action_switch _ _ _ _ dest Hcall).
      split.
      * intros [[->|?]|(x & Hx & Hxa)].
        -- right. exists a. split; [apply elem_of_cons; by left|done].
        -- by left.
        -- right. exists x. split; [apply elem_of_cons; by right|done].
      * intros [?|(x & Hx & Hxa)]; [by left; right|].
        apply elem_of_cons in Hx as [->|Hx].
        { rewrite Hact in Hxa. injection Hxa as ->. left. by left. }
        right. by exists x.
  - assert (∀ st' s' u',
              parse_known E rest st' ns s' u' = Parsed (ns', sources', unknown') →
              switch_value dest ns' = true ↔
              switch_value dest ns = true
              ∨ ∃ x, x ∈ a :: rest ∧ option_action x = Some (StoreTrue dest)) as Hplain.
    { intros st' s' u' Hrest. apply IH in Hrest; [|simpl; lia]. rewrite Hrest.
      split.
      - intros [?|(x & Hx & Hxa)]; [by left|].
        right. exists x. split; [apply elem_of_cons; by right|done].
      - intros [?|(x & Hx & Hxa)]; [by left|].
        apply elem_of_cons in Hx as [->|Hx].
        { apply option_strings_start_with_dash in Hxa. congruence. }
        right. by exists x. }
    destruct st; apply Hplain.
Qed.

(** X5.  In the namespace [parse_args] returns, a [store_true] switch
    ([-b], [-i], [-f], [-q], [--lenient], [-k], [--no-docstrings]) is on
    exactly when one of its option strings is on the command line; and
    [build] is on also when [-i] is: building in place implies
    building. *)
Theorem parse_args_switches args opts sources dest :
  parse_args E args = Parsed (opts, sources) →
  (switch_value dest opts = true ↔
   (∃ a, a ∈ args ∧ option_action a = Some (StoreTrue dest))
   ∨ (dest = Build ∧ ∃ a, a ∈ args ∧ option_action a = Some (StoreTrue BuildInplace))).
Proof.
  unfold parse_args, parse_args_raw, parse_known_args.
  destruct (forallb in_fragment args); [|done].
  destruct (parse_known E args Pending (defaults E) [] [])
    as [[[ns srcs] unk]| | |] eqn:Hknown; try done.
  pose proof (parse_known_switch dest _ _ _ _ _ _ _ _ Hknown) as Hdest.
  pose proof (parse_known_switch BuildInplace _ _ _ _ _ _ _ _ Hknown) as Hinplace.
  cbn [parsed_bind]. destruct (collect_unknown unk srcs) as [srcs'| | |]; try done.
  cbn [parsed_bind]. destruct srcs' as [|s srcs']; [done|].
  intros [= <- _].
  assert (switch_value dest (defaults E) = false) as Hd0 by (by destruct dest).
  assert (switch_value BuildInplace (defaults E) = false) as Hi0 by done.
  rewrite Hd0 in Hdest. rewrite Hi0 in Hinplace. clear Hknown Hd0 Hi0.
  destruct ns as [d c o ll an ex b bi par f q le k nd].
  destruct bi, (have_multiprocessing E), ll, dest; cbn in *;
    intuition (try congruence).
Qed.

(** One action's effect on the degree of parallelism and on the
    exclusion patterns. *)
Lemma call_action_parallel act value ns ns' :
  call_action E act value ns = Parsed ns' →
  parallel ns' = match act with
                 | StoreParallel => default (parallel ns) (int_of_digits value)
                 | _ => parallel ns
                 end
  ∧ excludes ns' = match act with
                   | AppendExclude => excludes ns ++ [value]
                   | _ => excludes ns
                   end.
Proof.
  destruct act as [| | |l|c| |d|]; simpl.
  - destruct (parse_directive_list E value (directives ns)); [|done]. by intros [= <-].
  - destruct (parse_compile_time_env E value (compile_time_env ns)); [|done]. by intros [= <-].
  - by intros [= <-].
  - by intros [= <-].
  - by intros [= <-].
  - by intros [= <-].
  - intros [= <-]. by destruct d.
  - destruct (int_of_digits value); [|done]. by intros [= <-].
Qed.

Lemma parse_known_parallel args : ∀ st ns sources unknown ns' sources' unknown',
  parse_known E args st ns sources unknown = Parsed (ns', sources', unknown') →
  parallel ns' = default (parallel ns) (last (parallel_values args)) ∧
  excludes ns' = excludes ns ++ exclude_values args.
Proof.
  induction args as [args IH] using (induction_ltof1 _ (@length string)).
  unfold ltof in IH. intros st ns sources unknown ns' sources' unknown'.
  destruct args as [|a rest].
  { intros [= <- _ _]. by rewrite app_nil_r. }
  unfold parallel_values, exclude_values in *. cbn [parse_known option_calls].
  destruct (starts_with_dash a) eqn:Hdash.
  - destruct (option_action a) as [act|] eqn:Hact; [|done].
    destruct (takes_value act) eqn:Hval.
    + destruct rest as [|v rest']; [done|].
      destruct (starts_with_dash v) eqn:Hv; [done|].
      destruct (call_action E act v ns) as [ns1| | |] eqn:Hcall; try done.
      intros Hrest. apply IH in Hrest as [-> ->]; [|simpl; lia].
      apply call_action_parallel in Hcall as [-> ->].
      destruct act; try done; cbn [omap list_omap fst snd].
      * by rewrite <-app_assoc.
      * destruct (int_of_digits v) as [n|]; [|done]. cbn [default].
        rewrite last_cons. by destruct (last _).
    + destruct (call_action E act EmptyString ns) as [ns1| | |] eqn:Hcall; try done.
      intros Hrest. apply IH in Hrest as [-> ->]; [|simpl; lia].
      apply call_action_parallel in Hcall as [-> ->].
      by destruct act.
  - destruct st; intros Hrest; apply IH in Hrest; simpl; done || lia.
Qed.

(** X6.  The degree of parallelism [parse_args] returns is the value of
    the last [-j] of the command line, [parallel_compiles] when there is
    none, and 0, whatever was asked for, when [multiprocessing] could
    not be imported. *)
Theorem parse_args_parallel args opts sources :
  parse_args E args = Parsed (opts, sources) →
  parallel opts
  = if have_multiprocessing E
    then default (parallel_compiles E) (last (parallel_values args))
    else 0%Z.
Proof.
  unfold parse_args, parse_args_raw, parse_known_args.
  destruct (forallb in_fragment args); [|done].
  destruct (parse_known E args Pending (defaults E) [] [])
    as [[[ns srcs] unk]| | |] eqn:Hknown; try done.
  apply parse_known_parallel in Hknown as [Hpar _].
  cbn [parsed_bind]. destruct (collect_unknown unk srcs) as [srcs'| | |]; try done.
  cbn [parsed_bind]. destruct srcs' as [|s srcs']; [done|].
  intros [= <- _]. change (parallel (defaults E)) with (parallel_compiles E) in Hpar.
  destruct ns as [d c o ll an ex b bi par f q le k nd]. cbn in Hpar. subst par.
  by destruct bi, (have_multiprocessing E), ll.
Qed.

(** X7.  The exclusion patterns [parse_args] returns are the values of
    all [-x] options of the command line, in the order given: [-x]
    accumulates, where [-j] and the language flags overwrite. *)
Theorem parse_args_excludes args opts sources :
  parse_args E args = Parsed (opts, sources) →
  excludes opts = exclude_values args.
Proof.
  unfold parse_args, parse_args_raw, parse_known_args.
  destruct (forallb in_fragment args); [|done].
  destruct (parse_known E args Pending (defaults E) [] [])
    as [[[ns srcs] unk]| | |] eqn:Hknown; try done.
  apply parse_known_parallel in Hknown as [_ Hex].
  cbn [parsed_bind]. destruct (collect_unknown unk srcs) as [srcs'| | |]; try done.
  cbn [parsed_bind]. destruct srcs' as [|s srcs']; [done|].
  intros [= <- _].
  destruct ns as [d c o ll an ex b bi par f q le k nd]. cbn in Hex. subst ex.
  by destruct bi, (have_multiprocessing E), ll.
Qed.
End ParserMore.

(** ** [run_distutils] *)

Lemma post_setup_exact E sa exts w Q :
  Q (match (setup E sa exts w).2 with None => Ok () | Some e => Raised e end)
    (emit (Setup sa exts) (set_dirs (list_to_set (setup E sa exts w).1 ∪ dirs w) w)) →
  post (distutils_setup E sa exts) w Q.
Proof.
  unfold post, distutils_setup. by destruct (setup E sa exts w) as [made [e|]].
Qed.

(** As [steps], with the outcome [H] of [setup] kept. *)
Ltac steps_exact H :=
  repeat (lazymatch goal with
          | |- post (distutils_setup _ _ _) _ _ => apply post_setup_exact; rewrite H
          | _ => step
          end; world_simpl).

Section RunDistutilsMore.
Variable E : Env.

(** X8.  When the build of a job fails, [run_distutils] raises: the
    exception of [setup] when [setup] was called, the [OSError] of
    [getcwd], [chdir] or [mkdtemp] when the job did not get that far.
    The [finally] clause never swallows or replaces the failure of the
    build. *)
Theorem run_distutils_propagates_build_failure base_dir ext_modules e w :
  (∀ args w1, (setup E args ext_modules w1).2 = Some e) →
  ∃ x, (run_distutils E (base_dir, ext_modules) w).1 = Raised x ∧
       if existsb is_build (during w (run_distutils E (base_dir, ext_modules) w).2)
       then x = e
       else is_OSError x = true.
Proof.
  intros Hfail.
  change (post (run_distutils E (base_dir, ext_modules)) w (λ r w',
    ∃ x, r = Raised x ∧
         if existsb is_build (during w w') then x = e else is_OSError x = true)).
  apply run_distutils_post. steps_exact Hfail.
  2:{ eexists; split; [reflexivity|]. during_norm. done. }
  unfold run_distutils_try, run_distutils_finally.
  destruct (truthy base_dir) eqn:Hb.
  - steps_exact Hfail; try absurd_dirs.
    all: try (unfold_temp; rewrite truthy_join; steps_exact Hfail;
              match goal with |- post (if ?b then _ else _) _ _ => destruct b eqn:Hd end;
              steps_exact Hfail).
    all: eexists; (split; [reflexivity|]); during_norm; done.
  - steps_exact Hfail. eexists; split; [reflexivity|]. during_norm. done.
Qed.

(** X9.  [run_distutils] removes nothing but its own temporary
    directory: a directory that existed before the call and does not
    lie in a temporary directory the call made exists after it. *)
Theorem run_distutils_keeps_directories base_dir ext_modules w d :
  isdir d w = true →
  (∀ t, Mkdtemp t ∈ during w (run_distutils E (base_dir, ext_modules) w).2 →
        within t d = false) →
  isdir d (run_distutils E (base_dir, ext_modules) w).2 = true.
Proof.
  intros Hd.
  change (post (run_distutils E (base_dir, ext_modules)) w (λ r w',
    (∀ t, Mkdtemp t ∈ during w w' → within t d = false) → isdir d w' = true)).
  apply run_distutils_post. steps; [|done].
  unfold run_distutils_try, run_distutils_finally.
  destruct (truthy base_dir) eqn:Hb.
  - steps; try absurd_dirs; try done.
    all: try (unfold_temp; rewrite truthy_join; steps;
              match goal with |- post (if ?b then _ else _) _ _ => destruct b eqn:Hdir end;
              steps).
    all: during_norm; intros Hout.
    all: try (apply bool_decide_eq_true; apply bool_decide_eq_true in Hd;
              rewrite ?elem_of_filter, ?elem_of_union; auto; fail).
    all: apply bool_decide_eq_true; apply bool_decide_eq_true in Hd;
         rewrite elem_of_filter, !elem_of_union; split; [|auto];
         apply Hout; rewrite !elem_of_cons; auto 10.
  - steps; intros _; apply bool_decide_eq_true; apply bool_decide_eq_true in Hd;
      rewrite elem_of_union; auto.
Qed.

(** X10.  A job with a base directory whose build is started makes
    exactly these calls: it enters the base directory, makes a temporary
    directory [t] there, calls [setup] with
    [build_ext -i --build-temp t] on the extensions of the job, returns
    to the directory it came from and removes [t]. *)
Theorem run_distutils_builds_in_base_dir base_dir ext_modules w args ms :
  truthy base_dir = true →
  Setup args ms ∈ during w (run_distutils E (base_dir, ext_modules) w).2 →
  ∃ t,
    args = ["build_ext"; "-i"; "--build-temp"; t] ∧ ms = ext_modules ∧
    during w (run_distutils E (base_dir, ext_modules) w).2
    = [RunDistutils (base_dir, ext_modules); Chdir (default "" base_dir); Mkdtemp t;
       Setup args ms; Chdir (cwd w); Rmtree t].
Proof.
  intros Hb.
  change (post (run_distutils E (base_dir, ext_modules)) w (λ r w',
    Setup args ms ∈ during w w' →
    ∃ t, args = ["build_ext"; "-i"; "--build-temp"; t] ∧ ms = ext_modules ∧
         during w w'
         = [RunDistutils (base_dir, ext_modules); Chdir (default "" base_dir); Mkdtemp t;
            Setup args ms; Chdir (cwd w); Rmtree t])).
  apply run_distutils_post. steps.
  2:{ during_norm. pick_event. }
  unfold run_distutils_try, run_distutils_finally. rewrite Hb.
  steps; try absurd_dirs; try (during_norm; pick_event; fail).
  all: unfold_temp; rewrite truthy_join; steps.
  all: match goal with |- post (if ?b then _ else _) _ _ => destruct b eqn:Hd end;
    steps; during_norm.
  all: try (let H := fresh in
            intros H; rewrite ?elem_of_cons, ?elem_of_nil in H;
            repeat (destruct H as [H|H]); try discriminate H; try done;
            injection H as -> ->; eexists; split_and!; reflexivity).
  all: exfalso; revert Hd; world_simpl; rewrite bool_decide_eq_false;
    intros Hd; apply Hd; rewrite !elem_of_union, elem_of_singleton; auto.
Qed.
End RunDistutilsMore.

(** ** [cython_compile] and [main] *)

Lemma creates_creation p e : creates p e = true → is_pool_creation e = true.
Proof. by destruct p, e. Qed.



Lemma post_call_cythonize_exact E paths opts w Q :
  Q (cythonize E paths opts w) (emit (Cythonize paths) w) →
  post (call_cythonize E paths opts) w Q.
Proof. done. Qed.

Lemma emit_after_calls e w l : emit e (after_calls w l) = after_calls w (l ++ [e]).
Proof. unfold emit, after_calls. simpl. by rewrite app_assoc. Qed.

Lemma after_no_calls w : w = after_calls w [].
Proof. destruct w. unfold after_calls. simpl. by rewrite app_nil_r. Qed.

Lemma kept_trans w0 w w' : kept w0 w → kept w w' → kept w0 w'.
Proof. intros [? ?] [? ?]. split; congruence. Qed.

Section PoolMore.
Variable E : Env.

(** The trace after one [cython_compile], cf. [cython_compile_calls]. *)
Lemma cython_compile_trace fuel pattern opts w :
  ∃ pv l,
    pool_inv opts pv l ∧
    trace (cython_compile E fuel pattern opts w).2
    = trace w ++ l ++ shutdown_calls (cython_compile E fuel pattern opts w).1 pv.
Proof.
  change (post (cython_compile E fuel pattern opts) w (λ r w',
    ∃ pv l, pool_inv opts pv l ∧ trace w' = trace w ++ l ++ shutdown_calls r pv)).
  unfold cython_compile, pool_terminate, pool_close, pool_join. steps.
  eapply post_mono.
  { apply (for_paths_inv (compile_inv w opts)).
    - intros path s. apply compile_path_inv.
    - exists []. cbn [fst snd]. rewrite app_nil_r. split; [done|apply pool_inv_nil]. }
  intros r [pv w'] (l & Hl & Hinv). cbn [fst snd] in *.
  destruct r as [[]|e|]; steps.
  - destruct pv as [p|]; steps; eexists _, l; (split; [done|]);
      world_simpl; cbn [shutdown_calls]; by rewrite Hl, <-?app_assoc, ?app_nil_r.
  - destruct pv as [p|]; steps; eexists _, l; (split; [done|]);
      world_simpl; cbn [shutdown_calls]; by rewrite Hl, <-?app_assoc, ?app_nil_r.
  - exists pv, l. split; [done|]. destruct pv;
      world_simpl; cbn [shutdown_calls]; by rewrite Hl, <-?app_assoc, ?app_nil_r.
Qed.

(** With a parallelism degree of at most one, the calls of
    [cython_compile] involve no pool. *)
Lemma cython_compile_sequential_trace fuel pattern opts w :
  (parallel opts ≤ 1)%Z →
  ∃ l, trace (cython_compile E fuel pattern opts w).2 = trace w ++ l ∧
       Forall (λ e, pool_free e = true) l.
Proof.
  intros Hpar.
  destruct (cython_compile_trace fuel pattern opts w) as (pv & l & Hinv & ->).
  destruct Hinv as (Hl & _ & Hpv). destruct pv as [p|].
  - destruct Hpv as (Hcr & _). apply existsb_exists in Hcr as (e & He & Hcr).
    apply creates_creation in Hcr. rewrite Forall_forall in Hl.
    apply list_elem_of_In in He.
    destruct (Hl e He) as (_ & _ & Hone). specialize (Hone Hcr). lia.
  - exists l.
    replace (shutdown_calls _ None) with (@nil event)
      by (by destruct (cython_compile _ _ _ _ _).1).
    rewrite app_nil_r. split; [done|].
    rewrite Forall_forall in Hl, Hpv. apply Forall_forall. intros e He.
    destruct (Hl e He) as (Hs & _). destruct (Hpv e He) as (Hc & Hsub).
    unfold pool_free. by rewrite Hs, Hc, Hsub.
Qed.

(** X11.  With a degree of parallelism of at most one, [cython_compile]
    never touches a pool: it creates none, submits to none and shuts
    none down, however many units the translator returns. *)
Theorem sequential_run_uses_no_pool fuel pattern opts w :
  (parallel opts ≤ 1)%Z →
  Forall (λ e, pool_free e = true)
         (during w (cython_compile E fuel pattern opts w).2).
Proof.
  intros Hpar.
  destruct (cython_compile_sequential_trace fuel pattern opts w Hpar) as (l & Hl & Hfree).
  by rewrite (during_app _ _ _ Hl).
Qed.

Lemma for_each_trace {A} (P : event → Prop) (f : A → ST world unit) xs :
  (∀ x w, ∃ l, trace (f x w).2 = trace w ++ l ∧ Forall P l) →
  ∀ w, ∃ l, trace (for_each f xs w).2 = trace w ++ l ∧ Forall P l.
Proof.
  intros Hf. induction xs as [|x xs IH]; intros w; simpl.
  - exists []. by rewrite app_nil_r.
  - unfold bind. destruct (Hf x w) as (l1 & Hl1 & HP1).
    destruct (f x w) as [[[]|e|] w1]; cbn [fst snd] in *.
    + destruct (IH w1) as (l2 & Hl2 & HP2). exists (l1 ++ l2).
      rewrite Hl2, Hl1, app_assoc. split; [done|]. by apply Forall_app.
    + by exists l1.
    + by exists l1.
Qed.

Lemma parse_args_without_multiprocessing args opts sources :
  have_multiprocessing E = false →
  parse_args E args = Parsed (opts, sources) → parallel opts = 0%Z.
Proof.
  intros Hmp. unfold parse_args.
  destruct (parse_args_raw E args) as [[ns srcs]| | |]; try done. cbn [parsed_bind].
  destruct srcs as [|s srcs]; [done|]. rewrite Hmp. intros [= <- _].
  by destruct (language_level _).
Qed.

(** X12.  Where [multiprocessing] cannot be imported, a run of [main]
    never touches a pool, whatever [-j] asks for: [parse_args] sets the
    degree of parallelism to 0, so [multiprocessing.Pool] is never
    looked up on the [None] module. *)
Theorem main_without_multiprocessing_uses_no_pool fuel args w :
  have_multiprocessing E = false →
  Forall (λ e, pool_free e = true) (during w (main E fuel args w).2).
Proof.
  intros Hmp.
  assert (∃ l, trace (main E fuel args w).2 = trace w ++ l ∧
               Forall (λ e, pool_free e = true) l) as (l & Hl & Hfree).
  2:{ by rewrite (during_app _ _ _ Hl). }
  unfold main.
  destruct (parse_args E args) as [[opts sources]| | |] eqn:Hparse;
    try (exists []; by rewrite app_nil_r).
  apply parse_args_without_multiprocessing in Hparse; [|done].
  unfold bind, when, update_flags, ret.
  destruct (lenient opts), (bool_decide (is_Some (annotate opts))), (no_docstrings opts);
    cbn [fst snd].
  all: match goal with
       | |- ∃ l, trace (for_each _ _ ?w1).2 = _ ∧ _ =>
           change (trace w) with (trace w1); apply for_each_trace
       end.
  all: intros path w1; apply cython_compile_sequential_trace; lia.
Qed.

(** [if pool is None: ...], with the world of each outcome. *)
Lemma post_ensure_pool_exact opts pv w Q :
  (∀ p, pv = Some p → Q (Ok ()) (pv, w)) →
  (pv = None →
   Q (Ok ()) (Some (RealPool (pools_made w)),
              emit (PoolNew (parallel opts) (pools_made w)) (count_pool w))) →
  (pv = None → Q (Ok ()) (Some FakePool, emit FakePoolNew w)) →
  (pv = None → ∀ x, Q (Raised x) (None, w)) →
  post (ensure_pool E opts) (pv, w) Q.
Proof.
  intros Hbound Hreal Hfake Hfail. unfold ensure_pool. steps. destruct pv as [p|]; steps.
  - by eapply Hbound.
  - apply post_new_Pool.
    + steps. by apply Hreal.
    + intros x. destruct (is_OSError x); steps; [by apply Hfake|by apply Hfail].
Qed.

Lemma run_distutils_kept args w :
  post (run_distutils E args) w (λ _ w', kept w w').
Proof.
  destruct args as [base_dir ext_modules]. unfold kept.
  apply run_distutils_post. steps; [|done].
  unfold run_distutils_try, run_distutils_finally.
  destruct (truthy base_dir) eqn:Hb.
  - steps; try done; try absurd_dirs.
    all: unfold_temp; rewrite truthy_join; steps.
    all: match goal with |- post (if ?b then _ else _) _ _ => destruct b end; by steps.
  - by steps.
Qed.

Lemma for_each_kept {A} (f : A → ST world unit) xs w0 :
  (∀ x w, kept w0 w → post (f x) w (λ _ w', kept w0 w')) →
  ∀ w, kept w0 w → post (for_each f xs) w (λ _ w', kept w0 w').
Proof.
  intros Hf. induction xs as [|x xs IH]; intros w Hw; simpl.
  - by step.
  - step. eapply post_mono; [by apply Hf|].
    intros [[]|e|] w' Hw'; [by apply IH|done|done].
Qed.

Lemma dispatch_kept w0 opts base_dir ext_modules s :
  kept w0 s.2 →
  post (dispatch E opts base_dir ext_modules) s (λ _ s', kept w0 s'.2).
Proof.
  intros Hs. unfold dispatch. destruct s as [pv w]. cbn [snd] in Hs.
  destruct (bool_decide (ext_modules ≠ []) && build opts); [|by steps].
  destruct (bool_decide (1 < length ext_modules)%nat && bool_decide (1 < parallel opts)%Z).
  - assert (∀ p w1, kept w0 w1 →
              post (pool_map_async E p (map (λ ext, (base_dir, [ext])) ext_modules)) w1
                (λ _ w', kept w0 w')) as Hsubmit.
    { intros p w1 Hw1. unfold pool_map_async. steps. destruct p as [id|]; steps; [done|].
      apply for_each_kept; [|done].
      intros j w2 Hw2. eapply post_mono; [apply run_distutils_kept|].
      intros r w3 Hw3. by eapply kept_trans. }
    step. apply post_ensure_pool_exact.
    + intros p ->. steps. by apply Hsubmit.
    + intros ->. steps. by apply Hsubmit.
    + intros ->. steps. by apply Hsubmit.
    + by intros -> x.
  - steps. eapply post_mono; [apply run_distutils_kept|].
    intros r w' Hw'. by eapply kept_trans.
Qed.

Lemma compile_path_kept w0 fuel opts path s :
  kept w0 s.2 →
  post (compile_path E fuel opts path) s (λ _ s', kept w0 s'.2).
Proof.
  intros Hs. unfold compile_path. steps.
  apply post_choose_base_dir; [|done]. intros b Hb. steps.
  apply post_call_cythonize. intros r.
  destruct r as [ext_modules|e|]; [|done|done].
  by apply dispatch_kept.
Qed.

Lemma cython_compile_kept fuel pattern opts w :
  post (cython_compile E fuel pattern opts) w (λ _ w', kept w w').
Proof.
  unfold cython_compile, pool_terminate, pool_close, pool_join. steps.
  eapply post_mono.
  { apply (for_paths_inv (λ s, kept w s.2)).
    - intros path s. apply compile_path_kept.
    - done. }
  intros r [pv w'] Hw'. cbn [fst snd] in *.
  destruct r as [[]|e|]; steps; try done.
  all: destruct pv as [p|]; by steps.
Qed.

(** X13.  [cython_compile] leaves the process in the working directory
    it was called in, however it ends and whichever way the units were
    built: every [run_distutils] it runs in the calling thread, with or
    without a base directory, directly or through the [_FakePool],
    comes back to where it started. *)
Theorem cython_compile_restores_cwd fuel pattern opts w :
  cwd (cython_compile E fuel pattern opts w).2 = cwd w.
Proof. apply (cython_compile_kept fuel pattern opts w). Qed.

(** X14.  The compiler flags after [main]: [--lenient] switches
    [error_on_unknown_names] and [error_on_uninitialized] off, [-a] or
    [--annotate-fullc] switches [annotate] on, [--no-docstrings]
    switches [docstrings] off; a flag whose option is absent keeps its
    value, and no later call of the module changes them. *)
Theorem main_sets_compiler_flags fuel args opts sources w :
  parse_args E args = Parsed (opts, sources) →
  flags (main E fuel args w).2
  = CompilerFlags
      (if lenient opts then false else error_on_unknown_names (flags w))
      (if lenient opts then false else error_on_uninitialized (flags w))
      (match annotate opts with Some _ => true | None => flag_annotate (flags w) end)
      (if no_docstrings opts then false else docstrings (flags w)).
Proof.
  intros Hparse. unfold main. rewrite Hparse.
  unfold bind, when, update_flags, ret.
  assert (∀ w1, flags (for_each (λ path, cython_compile E fuel path opts) sources w1).2
                = flags w1) as Hloop.
  { intros w1. apply (for_each_kept _ sources w1); [|done].
    intros path w2 Hw2. eapply post_mono; [apply cython_compile_kept|].
    intros r w3 Hw3. by eapply kept_trans. }
  destruct (lenient opts), (annotate opts), (no_docstrings opts); cbn [fst snd];
    rewrite ?bool_decide_true by (by eexists);
    rewrite ?bool_decide_false by (by intros [? ?]);
    cbn [fst snd]; rewrite Hloop; by destruct w as [? ? ? ? []].
Qed.

Lemma compile_path_translates w opts fuel path s :
  (∀ paths w1 units,
     cythonize E paths opts w1 = Ok units → units = [] ∨ build opts = false) →
  translated w s →
  post (compile_path E fuel opts path) s (λ _ s', translated w s').
Proof.
  intros Hnone [Hpv (l & Hw & Hl)]. destruct s as [pv w1]. cbn [fst snd] in *. subst.
  unfold compile_path. steps.
  apply post_choose_base_dir; [|split; [done|by exists l]]. intros b Hb. steps.
  apply post_call_cythonize_exact.
  assert (translated w
            (None, emit (Cythonize (translation_paths path (after_calls w l)))
                        (after_calls w l))) as Hs.
  { split; [done|]. eexists. rewrite emit_after_calls. split; [done|].
    apply Forall_app. split; [done|]. by repeat constructor. }
  destruct (cythonize E _ opts (after_calls w l)) as [units|e|] eqn:Hunits; [|done..].
  unfold dispatch. destruct (Hnone _ _ _ Hunits) as [-> | Hb0].
  2:{ rewrite Hb0, andb_false_r. by steps. }
  rewrite bool_decide_false by (by intros []). by steps.
Qed.

(** X15.  Without [-b] (and without [-i]), or when the translator
    returns no unit, [cython_compile] only translates: its calls are
    calls of [cythonize], no build is run and no pool is created, and
    the world is otherwise as it was. *)
Theorem cython_compile_without_build_only_translates fuel pattern opts w :
  (∀ paths w1 units,
     cythonize E paths opts w1 = Ok units → units = [] ∨ build opts = false) →
  ∃ l, (cython_compile E fuel pattern opts w).2 = after_calls w l ∧
       Forall (λ e, is_translation e = true) l.
Proof.
  intros Hnone.
  change (post (cython_compile E fuel pattern opts) w (λ _ w',
    ∃ l, w' = after_calls w l ∧ Forall (λ e, is_translation e = true) l)).
  unfold cython_compile. steps.
  eapply post_mono.
  { apply (for_paths_inv (translated w)).
    - intros path s. by apply compile_path_translates.
    - split; [done|]. exists []. split; [apply after_no_calls|done]. }
  intros r [pv w'] [Hpv Hw']. cbn [fst snd] in *. subst pv.
  destruct r as [[]|e|]; by steps.
Qed.

(** X16.  With a real pool (bound already, or started now), dispatching
    more than one unit under a degree of parallelism above one submits
    one job per unit, in translator order, and returns at once: the
    result of [map_async] is dropped, so the dispatch succeeds whatever
    becomes of the builds in the workers. *)
Theorem real_pool_dispatch opts base_dir ext_modules pv w p w1 :
  real_pool_ready E opts pv w = Some (p, w1) →
  build opts = true →
  (1 < length ext_modules)%nat →
  (1 < parallel opts)%Z →
  dispatch E opts base_dir ext_modules (pv, w)
  = (Ok (), (Some p, emit (MapAsync p (map (λ ext, (base_dir, [ext])) ext_modules)) w1)).
Proof.
  intros Hpool Hbuild Hlen Hpar. unfold dispatch. rewrite Hbuild.
  rewrite (bool_decide_true (ext_modules ≠ []))
    by (destruct ext_modules; [simpl in Hlen; lia|done]).
  rewrite !bool_decide_true by done. cbn [andb].
  unfold bind, ensure_pool, get_local, bind. cbn [fst snd].
  destruct pv as [[id|]|]; simpl in Hpool; [|done|].
  - injection Hpool as <- <-. done.
  - unfold try_except_else, on_world, new_Pool. cbn [fst snd].
    destruct (have_multiprocessing E); [|done].
    destruct (multiprocessing_Pool E (parallel opts) w); [done|].
    injection Hpool as <- <-. done.
Qed.

(** X17.  Only [OSError] falls back to the [_FakePool]: when the
    creation of the pool raises anything else (the [AttributeError] of a
    missing [multiprocessing] included), the dispatch raises that
    exception, [pool] stays unbound and no job is run. *)
Theorem pool_creation_failure_propagates opts base_dir ext_modules w e :
  new_Pool E (parallel opts) w = (Raised e, w) →
  is_OSError e = false →
  build opts = true →
  (1 < length ext_modules)%nat →
  (1 < parallel opts)%Z →
  dispatch E opts base_dir ext_modules (None, w) = (Raised e, (None, w)).
Proof.
  intros Hnew Hos Hbuild Hlen Hpar. unfold dispatch. rewrite Hbuild.
  rewrite (bool_decide_true (ext_modules ≠ []))
    by (destruct ext_modules; [simpl in Hlen; lia|done]).
  rewrite !bool_decide_true by done. cbn [andb].
  unfold bind, ensure_pool, get_local, bind. cbn [fst snd].
  unfold try_except_else, on_world. cbn [fst snd]. rewrite Hnew. cbn [fst snd].
  by rewrite Hos.
Qed.


End PoolMore.

(** ** The walks over parent directories *)

Lemma append_empty_r s : s +:+ "" = s.
Proof. induction s as [|c r IH]; [done|]. by rewrite append_cons, IH. Qed.

Lemma iter_dirname_shift n d :
  Nat.iter n PosixPath.dirname (PosixPath.dirname d)
  = Nat.iter (S n) PosixPath.dirname d.
Proof. induction n as [|n IH]; [done|]. simpl in *. by rewrite IH. Qed.

(** [split] on a directory name of separators only: the name itself,
    with an empty tail. *)
Lemma split_all_slashes d : all_slashes d = true → PosixPath.split d = (d, "").
Proof.
  intros Hd. destruct (nonempty d) eqn:Hne.
  - pose proof (split_join d "" (or_introl Hd) eq_refl) as Hsplit.
    unfold PosixPath.join in Hsplit. cbn [starts_with_slash] in Hsplit.
    rewrite (all_slashes_ends d Hd Hne), orb_true_r in Hsplit.
    by rewrite append_empty_r in Hsplit.
  - by destruct d.
Qed.

Section WalkMore.
Variable is_pkg : string → bool.

Lemma find_package_base_loop_result fuel : ∀ d pp b pp',
  find_package_base_loop is_pkg fuel d pp = Some (b, pp') →
  is_pkg b = false ∧
  ∃ n prefix,
    (n < fuel)%nat ∧
    b = Nat.iter n PosixPath.dirname d ∧
    (∀ k, (k < n)%nat → is_pkg (Nat.iter k PosixPath.dirname d) = true) ∧
    pp' = prefix +:+ pp.
Proof.
  induction fuel as [|fuel IH]; intros d pp b pp'; [done|]. simpl.
  destruct (is_pkg d) eqn:Hd.
  - destruct (PosixPath.split d) as [d' parent] eqn:Hsplit.
    assert (d' = PosixPath.dirname d) as -> by (unfold PosixPath.dirname; by rewrite Hsplit).
    intros (Hb & n & prefix & Hn & -> & Hpk & ->)%IH. split; [done|].
    exists (S n), (prefix +:+ parent +:+ "/"). split_and!.
    + lia.
    + by rewrite iter_dirname_shift.
    + intros [|k] Hk; [done|]. rewrite <-iter_dirname_shift. apply Hpk. lia.
    + by rewrite !append_assoc.
  - intros [= <- <-]. split; [done|]. exists 0%nat, "". split_and!; [lia|done| |done].
    intros k Hk. lia.
Qed.

(** X19.  Whatever the path, a result [(base_dir, package_path)] of
    [find_package_base] is sound: [base_dir] is no package directory, it
    is the first such directory among the ancestors of the path (every
    directory between it and the file is a package), and
    [package_path] ends with the file name of the path. *)
Theorem find_package_base_result fuel path b pp :
  find_package_base is_pkg fuel path = Some (b, pp) →
  is_pkg b = false ∧
  ∃ n prefix,
    b = Nat.iter (S n) PosixPath.dirname path ∧
    (∀ k, (0 < k ≤ n)%nat → is_pkg (Nat.iter k PosixPath.dirname path) = true) ∧
    pp = prefix +:+ (PosixPath.split path).2.
Proof.
  unfold find_package_base.
  destruct (PosixPath.split path) as [d leaf] eqn:Hsplit.
  assert (d = PosixPath.dirname path) as -> by (unfold PosixPath.dirname; by rewrite Hsplit).
  intros (Hb & n & prefix & Hn & -> & Hpk & ->)%find_package_base_loop_result.
  split; [done|]. exists n, prefix. split_and!.
  - by rewrite iter_dirname_shift.
  - intros [|k] Hk; [lia|]. rewrite <-iter_dirname_shift. apply Hpk. lia.
  - done.
Qed.

Lemma find_package_base_loop_spins d :
  all_slashes d = true → is_pkg d = true →
  ∀ fuel pp, find_package_base_loop is_pkg fuel d pp = None.
Proof.
  intros Hd Hpk fuel. induction fuel as [|fuel IH]; intros pp; [done|].
  simpl. rewrite Hpk, (split_all_slashes d Hd). apply IH.
Qed.

(** X20.  The loop of [find_package_base] has no guard for the top of
    the tree: [os.path.split] maps the root (and the empty directory
    name of a bare file name) to itself, so for a file directly in such
    a directory that counts as a package the walk never ends, on any
    fuel. *)
Theorem find_package_base_never_leaves_a_package_root d leaf fuel :
  all_slashes d = true →
  no_slash leaf = true →
  is_pkg d = true →
  find_package_base is_pkg fuel (PosixPath.join d leaf) = None.
Proof.
  intros Hd Hleaf Hpk. unfold find_package_base.
  rewrite split_join; [|by left|done].
  by apply find_package_base_loop_spins.
Qed.
End WalkMore.

Section ClimbMore.
Variable E : Env.

Lemma climb_result fuel w : ∀ path b,
  climb E fuel path w = Some b →
  isdir b w = true ∧ is_package_dir E b = false ∧
  ∃ n, b = Nat.iter n PosixPath.dirname path ∧
       ∀ k, (k < n)%nat →
            isdir (Nat.iter k PosixPath.dirname path) w = false
            ∨ is_package_dir E (Nat.iter k PosixPath.dirname path) = true.
Proof.
  induction fuel as [|fuel IH]; intros path b; [done|]. simpl.
  destruct (isdir path w) eqn:Hdir; simpl.
  - destruct (is_package_dir E path) eqn:Hpk.
    + intros (Hb & Hnp & n & -> & Hup)%IH. split_and!; [done..|].
      exists (S n). split; [by rewrite iter_dirname_shift|].
      intros [|k] Hk; [by right|]. rewrite <-iter_dirname_shift. apply Hup. lia.
    + intros [= <-]. split_and!; [done..|]. exists 0%nat. split; [done|]. intros k Hk. lia.
  - intros (Hb & Hnp & n & -> & Hup)%IH. split_and!; [done..|].
    exists (S n). split; [by rewrite iter_dirname_shift|].
    intros [|k] Hk; [by left|]. rewrite <-iter_dirname_shift. apply Hup. lia.
Qed.

(** X21.  The base directory [cython_compile] chooses for an in-place
    build of a path is the nearest of the path and its ancestors that
    is an existing directory and no package directory: everything
    nearer is either no directory or a package. *)
Theorem base_dir_is_nearest_plain_directory fuel opts path w b :
  choose_base_dir E fuel opts path w = (Ok (Some b), w) →
  build_inplace opts = true ∧
  isdir b w = true ∧ is_package_dir E b = false ∧
  ∃ n, b = Nat.iter n PosixPath.dirname path ∧
       ∀ k, (k < n)%nat →
            isdir (Nat.iter k PosixPath.dirname path) w = false
            ∨ is_package_dir E (Nat.iter k PosixPath.dirname path) = true.
Proof.
  unfold choose_base_dir. destruct (build_inplace opts); [|done].
  destruct (climb E fuel path w) as [b'|] eqn:Hclimb; [|done].
  intros [= ->]. split; [done|]. by apply (climb_result fuel).
Qed.
End ClimbMore.

(** ** The further properties on the sample tree *)

Lemma parse_option_splits_at_first_equals_witness :
  parse_option "embedsignature" = ("embedsignature", true) ∧
  parse_option ("embedsignature" +:+ "=" +:+ "False=x")
  = ("embedsignature",
     negb (existsb (String.eqb (lower "False=x")) ["false"; "f"; "0"; "no"])).
Proof.
  apply (parse_option_splits_at_first_equals "embedsignature" "False=x").
  reflexivity.
Defined.

Lemma parse_args_sources_witness :
  ∃ opts,
    parse_args (sample_env [] true true) ["a.pyx"; "-j"; "2"; "b.pyx"]
    = Parsed (opts, ["a.pyx"; "b.pyx"]) ∧
    ["a.pyx"; "b.pyx"] = positionals ["a.pyx"; "-j"; "2"; "b.pyx"] ∧
    ["a.pyx"; "b.pyx"] ≠ [].
Proof.
  eexists. split; [vm_compute; reflexivity|].
  exact (parse_args_sources (sample_env [] true true)
           ["a.pyx"; "-j"; "2"; "b.pyx"] _ ["a.pyx"; "b.pyx"] eq_refl).
Defined.

Lemma main_without_sources_exits_witness :
  main (sample_env ["m"] true true) 3 ["-b"; "-j"; "2"] sample_world
  = (Raised (SystemExit 2), sample_world).
Proof.
  eapply (main_without_sources_exits (sample_env ["m"] true true) 3 ["-b"; "-j"; "2"]).
  - vm_compute. reflexivity.
  - reflexivity.
Defined.

Lemma parse_args_switches_witness :
  ∃ opts,
    parse_args (sample_env [] true true) ["-i"; "a.pyx"] = Parsed (opts, ["a.pyx"]) ∧
    (switch_value Build opts = true ↔
     (∃ a, a ∈ ["-i"; "a.pyx"] ∧ option_action a = Some (StoreTrue Build))
     ∨ (Build = Build
        ∧ ∃ a, a ∈ ["-i"; "a.pyx"] ∧ option_action a = Some (StoreTrue BuildInplace))).
Proof.
  eexists. split; [vm_compute; reflexivity|].
  exact (parse_args_switches (sample_env [] true true) ["-i"; "a.pyx"] _ ["a.pyx"]
           Build eq_refl).
Defined.

Lemma parse_args_parallel_witness :
  ∃ opts,
    parse_args (sample_env [] true true) ["-j"; "2"; "a.pyx"; "-j"; "5"]
    = Parsed (opts, ["a.pyx"]) ∧
    parallel opts = 5%Z.
Proof.
  eexists. split; [vm_compute; reflexivity|].
  exact (parse_args_parallel (sample_env [] true true)
           ["-j"; "2"; "a.pyx"; "-j"; "5"] _ ["a.pyx"] eq_refl).
Defined.

Lemma parse_args_excludes_witness :
  ∃ opts,
    parse_args (sample_env [] true true) ["-x"; "t.pyx"; "a.pyx"; "-x"; "u.pyx"]
    = Parsed (opts, ["a.pyx"]) ∧
    excludes opts = ["t.pyx"; "u.pyx"].
Proof.
  eexists. split; [vm_compute; reflexivity|].
  exact (parse_args_excludes (sample_env [] true true)
           ["-x"; "t.pyx"; "a.pyx"; "-x"; "u.pyx"] _ ["a.pyx"] eq_refl).
Defined.

Lemma run_distutils_propagates_build_failure_witness :
  ∃ x,
    (run_distutils (sample_env ["m"] true false) (Some "/w/pkg", ["m"]) sample_world).1
    = Raised x ∧
    if existsb is_build
         (during sample_world
            (run_distutils (sample_env ["m"] true false) (Some "/w/pkg", ["m"])
               sample_world).2)
    then x = SystemExit 1
    else is_OSError x = true.
Proof.
  apply (run_distutils_propagates_build_failure (sample_env ["m"] true false)
           (Some "/w/pkg") ["m"] (SystemExit 1) sample_world).
  intros args w1. reflexivity.
Defined.

Lemma run_distutils_keeps_directories_witness :
  isdir "/w/pkg"
    (run_distutils (sample_env ["m"] true true) (Some "/w/pkg", ["m"]) sample_world).2
  = true.
Proof.
  apply (run_distutils_keeps_directories (sample_env ["m"] true true)
           (Some "/w/pkg") ["m"] sample_world "/w/pkg").
  - reflexivity.
  - intros t.
    match goal with
    | |- _ ∈ ?l → _ =>
        replace l with
          [RunDistutils (Some "/w/pkg", ["m"]); Chdir "/w/pkg";
           Mkdtemp "/w/pkg/tmpk3x9";
           Setup ["build_ext"; "-i"; "--build-temp"; "/w/pkg/tmpk3x9"] ["m"];
           Chdir "/w"; Rmtree "/w/pkg/tmpk3x9"] by (vm_compute; reflexivity)
    end.
    intros Ht. rewrite !elem_of_cons, elem_of_nil in Ht.
    repeat (destruct Ht as [Ht|Ht]); try discriminate Ht; [|done].
    injection Ht as ->. reflexivity.
Defined.

Lemma run_distutils_builds_in_base_dir_witness :
  ∃ t,
    ["build_ext"; "-i"; "--build-temp"; "/w/pkg/tmpk3x9"]
    = ["build_ext"; "-i"; "--build-temp"; t] ∧
    ["m"] = ["m"] ∧
    during sample_world
      (run_distutils (sample_env ["m"] true true) (Some "/w/pkg", ["m"]) sample_world).2
    = [RunDistutils (Some "/w/pkg", ["m"]); Chdir "/w/pkg"; Mkdtemp t;
       Setup ["build_ext"; "-i"; "--build-temp"; "/w/pkg/tmpk3x9"] ["m"];
       Chdir "/w"; Rmtree t].
Proof.
  apply (run_distutils_builds_in_base_dir (sample_env ["m"] true true)
           (Some "/w/pkg") ["m"] sample_world
           ["build_ext"; "-i"; "--build-temp"; "/w/pkg/tmpk3x9"] ["m"]).
  - reflexivity.
  - vm_compute. repeat constructor.
Defined.

Lemma sequential_run_uses_no_pool_witness :
  Forall (λ e, pool_free e = true)
    (during sample_world
       (cython_compile (sample_env ["m1"; "m2"] true true) 3 "/w/pkg/a.pyx"
          (sample_options true 1) sample_world).2).
Proof.
  apply (sequential_run_uses_no_pool (sample_env ["m1"; "m2"] true true) 3
           "/w/pkg/a.pyx" (sample_options true 1) sample_world).
  simpl. lia.
Defined.

Lemma main_without_multiprocessing_uses_no_pool_witness :
  Forall (λ e, pool_free e = true)
    (during sample_world
       (main sample_env_without_multiprocessing 3 ["-b"; "-j"; "4"; "/w/a.pyx"]
          sample_world).2).
Proof.
  apply (main_without_multiprocessing_uses_no_pool sample_env_without_multiprocessing 3
           ["-b"; "-j"; "4"; "/w/a.pyx"] sample_world).
  reflexivity.
Defined.

Lemma main_sets_compiler_flags_witness :
  flags (main (sample_env ["m"] true true) 3 ["--lenient"; "-a"; "/w/a.pyx"]
           sample_world).2
  = CompilerFlags false false true true.
Proof.
  exact (main_sets_compiler_flags (sample_env ["m"] true true) 3
           ["--lenient"; "-a"; "/w/a.pyx"] _ _ sample_world eq_refl).
Defined.

Lemma cython_compile_without_build_only_translates_witness :
  ∃ l,
    (cython_compile (sample_env [] true true) 3 "/w/a.pyx" (sample_options false 2)
       sample_world).2
    = after_calls sample_world l ∧
    Forall (λ e, is_translation e = true) l.
Proof.
  apply (cython_compile_without_build_only_translates (sample_env [] true true) 3
           "/w/a.pyx" (sample_options false 2) sample_world).
  intros paths w1 units Hunits. left. by injection Hunits as <-.
Defined.

Lemma real_pool_dispatch_witness :
  dispatch (sample_env ["m1"; "m2"] true true) (sample_options true 2)
    (Some "/w") ["m1"; "m2"] (None, sample_world)
  = (Ok (),
     (Some (RealPool 0),
      emit (MapAsync (RealPool 0)
              (map (λ ext, (Some "/w", [ext])) ["m1"; "m2"]))
        (emit (PoolNew 2 0) (count_pool sample_world)))).
Proof.
  apply (real_pool_dispatch (sample_env ["m1"; "m2"] true true) (sample_options true 2)
           (Some "/w") ["m1"; "m2"] None sample_world).
  - reflexivity.
  - reflexivity.
  - simpl. lia.
  - simpl. lia.
Defined.

Lemma pool_creation_failure_propagates_witness :
  dispatch sample_env_without_multiprocessing (sample_options false 2)
    None ["m1"; "m2"] (None, sample_world)
  = (Raised (PyException "AttributeError"), (None, sample_world)).
Proof.
  apply (pool_creation_failure_propagates sample_env_without_multiprocessing
           (sample_options false 2) None ["m1"; "m2"] sample_world).
  - reflexivity.
  - reflexivity.
  - reflexivity.
  - simpl. lia.
  - simpl. lia.
Defined.

Lemma find_package_base_result_witness :
  String.eqb "/w/pkg" "/w" = false ∧
  ∃ n prefix,
    "/w" = Nat.iter (S n) PosixPath.dirname "/w/pkg/a.pyx" ∧
    (∀ k, (0 < k ≤ n)%nat →
          String.eqb "/w/pkg" (Nat.iter k PosixPath.dirname "/w/pkg/a.pyx") = true) ∧
    "pkg/a.pyx" = prefix +:+ (PosixPath.split "/w/pkg/a.pyx").2.
Proof.
  apply (find_package_base_result (String.eqb "/w/pkg") 3 "/w/pkg/a.pyx" "/w" "pkg/a.pyx").
  reflexivity.
Defined.

Lemma find_package_base_never_leaves_a_package_root_witness :
  find_package_base (String.eqb "/") 1000 (PosixPath.join "/" "a.pyx") = None.
Proof.
  apply (find_package_base_never_leaves_a_package_root (String.eqb "/") "/" "a.pyx" 1000);
    reflexivity.
Defined.

Lemma base_dir_is_nearest_plain_directory_witness :
  build_inplace (sample_options true 1) = true ∧
  isdir "/w" sample_world = true ∧
  is_package_dir (sample_env [] true true) "/w" = false ∧
  ∃ n, "/w" = Nat.iter n PosixPath.dirname "/w/pkg/a.pyx" ∧
       ∀ k, (k < n)%nat →
            isdir (Nat.iter k PosixPath.dirname "/w/pkg/a.pyx") sample_world = false
            ∨ is_package_dir (sample_env [] true true)
                (Nat.iter k PosixPath.dirname "/w/pkg/a.pyx") = true.
Proof.
  apply (base_dir_is_nearest_plain_directory (sample_env [] true true) 3
           (sample_options true 1) "/w/pkg/a.pyx" sample_world "/w").
  vm_compute. reflexivity.
Defined.
